(** * spacy_regex: regex search over a tokenized document

    A shallow embedding of [spacy_regex.py]: the character-offset to
    token-index table ([_chr2tok]), its per-document cache, the resolver
    from character intervals to token spans ([get_span_from_idxs]) and
    the four search operations ([doc_finditer], [doc_findall],
    [span_finditer], [span_findall]).

    Python integers are [Z]; token positions, which come from
    [enumerate], are [nat]; the dictionary built by [_chr2tok] is a
    [gmap Z nat]; exceptions are an explicit [result] type; the cached
    attribute [doc._._idx_to_ti_map] is threaded as explicit state; a
    generator is a value with a [next] operation. *)

From Stdlib Require Import ZArith Lia Sorted.
From stdpp Require Import base option list gmap strings.

#[local] Open Scope Z_scope.

(** ** Exceptions *)

(** The exceptions the module can raise: [IndexError] from subscripting a
    document or span out of range, [KeyError k] from subscripting the
    offset table at a missing key [k], [TypeError] from subscripting
    [None], [re_error] from the regex engine rejecting a pattern. *)
Inductive exn : Type :=
  | IndexError
  | KeyError (k : Z)
  | TypeError
  | re_error.

Inductive result (A : Type) : Type :=
  | Ok (a : A)
  | Raise (e : exn).
Arguments Ok {A} a.
Arguments Raise {A} e.

(** ** Documents, tokens, spans *)

Module Py.

(** [len(s)] of a string. *)
Definition len (s : string) : Z := Z.of_nat (String.length s).

(** [range(n)]: the offsets [0, 1, ..., n-1]; empty when [n <= 0]. *)
Definition range (n : Z) : list Z := Z.of_nat <$> seq 0 (Z.to_nat n).

(** [s[a:b]] for [0 <= a]. *)
Definition slice (s : string) (a b : Z) : string :=
  String.substring (Z.to_nat a) (Z.to_nat (b - a)) s.

(** [x in y] on strings: [x] occurs in [y] as a contiguous substring. *)
Fixpoint contains (x y : string) : bool :=
  String.prefix x y ||
  match y with
  | EmptyString => false
  | String _ y' => contains x y'
  end.

End Py.

(** Modelled from the spec: the token type of the host library, which
    exposes the absolute offset of its first character ([tok.idx]) and
    its text ([tok.text]). *)
Record Token : Type := mkToken { idx : Z; text : string }.

(** Modelled from the spec: the document type of the host library, an
    ordered token sequence together with the full text the offsets refer
    to ([doc.text]). *)
Record Doc : Type := mkDoc { doc_tokens : list Token; doc_text : string }.

(** Modelled from the spec: a span is a half-open token range
    [[span_start, span_end)] of its owning document. *)
Record Span : Type := mkSpan { span_doc : Doc; span_start : nat; span_end : nat }.

(** [len(doc)]. *)
Definition doc_len (doc : Doc) : Z := Z.of_nat (length (doc_tokens doc)).

(** Modelled from the spec: [doc[i]], with Python's negative indices
    counted from the end; [IndexError] outside the token sequence. *)
Definition doc_getitem (doc : Doc) (i : Z) : result Token :=
  let j := if i <? 0 then i + doc_len doc else i in
  if (0 <=? j) && (j <? doc_len doc) then
    match doc_tokens doc !! Z.to_nat j with
    | Some tok => Ok tok
    | None => Raise IndexError
    end
  else Raise IndexError.

(** Modelled from the spec: [doc[a:b]], the span [[a, b)] of [doc]. *)
Definition doc_slice (doc : Doc) (a b : nat) : Span := mkSpan doc a b.

(** Modelled from the spec: [span[0]], the first token of a span;
    [IndexError] when the span covers no token. *)
Definition span_first (sp : Span) : result Token :=
  if (span_start sp <? span_end sp)%nat
  then doc_getitem (span_doc sp) (Z.of_nat (span_start sp))
  else Raise IndexError.

(** End of a token's character span. *)
Definition tok_end (tok : Token) : Z := idx tok + Py.len (text tok).

(** Modelled from the spec: [span.text], the document text from the
    first covered token's start through the last covered token's end;
    empty for a span covering no token. *)
Definition span_text (sp : Span) : string :=
  let toks := doc_tokens (span_doc sp) in
  match toks !! span_start sp, toks !! Nat.pred (span_end sp) with
  | Some first, Some last =>
      if (span_start sp <? span_end sp)%nat
      then Py.slice (doc_text (span_doc sp)) (idx first) (tok_end last)
      else EmptyString
  | _, _ => EmptyString
  end.

(** The length of the document's text ([len(doc.text)]). *)
Definition doc_char_length (doc : Doc) : Z := Py.len (doc_text doc).

(** ** The offset table *)

(** [{tok.idx: i for i, tok in enumerate(spacy_doc)}], built left to
    right from position [i]; a later token with the same offset
    overwrites an earlier one. *)
Fixpoint seed_from (i : nat) (toks : list Token) (d : gmap Z nat) : gmap Z nat :=
  match toks with
  | [] => d
  | tok :: rest => seed_from (S i) rest (<[idx tok := i]> d)
  end.

Definition seed (toks : list Token) : gmap Z nat := seed_from 0 toks ∅.

(** One iteration of the loop of [_chr2tok] on the pair [(d, i)]. *)
Definition chr2tok_step (st : gmap Z nat * nat) (o : Z) : gmap Z nat * nat :=
  match st.1 !! o with
  | Some j => (st.1, j)
  | None => (<[o := st.2]> st.1, st.2)
  end.

(** [_chr2tok]: reading [spacy_doc[-1]] raises on a document without
    tokens, after the seeding comprehension has run. *)
Definition _chr2tok (spacy_doc : Doc) : result (gmap Z nat) :=
  let d := seed (doc_tokens spacy_doc) in
  match doc_getitem spacy_doc (-1) with
  | Raise e => Raise e
  | Ok last =>
      Ok (fold_left chr2tok_step (Py.range (idx last + Py.len (text last) + 1)) (d, 0%nat)).1
  end.

(** Modelled from the spec: the invariant of a token sequence, whose
    starts are non-negative, strictly increasing and non-overlapping
    (gaps between tokens are allowed). *)
Fixpoint tokens_after (prev : option Token) (toks : list Token) : bool :=
  match toks with
  | [] => true
  | tok :: rest =>
      match prev with
      | None => 0 <=? idx tok
      | Some p => (idx p <? idx tok) && (tok_end p <=? idx tok)
      end && tokens_after (Some tok) rest
  end.

Definition tokens_ordered (toks : list Token) : bool := tokens_after None toks.

(** Modelled from the spec: every token's text is the document text at
    the token's offsets. *)
Definition text_agrees (doc : Doc) : bool :=
  forallb (fun tok =>
             (tok_end tok <=? doc_char_length doc) &&
             String.eqb (Py.slice (doc_text doc) (idx tok) (tok_end tok)) (text tok))
          (doc_tokens doc).

Definition doc_ok (doc : Doc) : bool :=
  tokens_ordered (doc_tokens doc) && text_agrees doc.

(** ** The per-document store and the exception/state monad *)

(** The state a document carries through the module: the extension
    attribute [doc._._idx_to_ti_map] (default [None]) and, as
    instrumentation, the keys at which the offset table has been
    subscripted so far, oldest first. *)
Record world : Type := mkWorld {
  _idx_to_ti_map : option (gmap Z nat);
  subscripted : list Z
}.

Definition fresh : world := mkWorld None [].

(** A computation runs on the store and returns a value or raises; the
    store survives an exception. *)
Definition M (A : Type) : Type := world -> result A * world.

#[global] Instance M_ret : MRet M := fun A a w => (Ok a, w).
#[global] Instance M_bind : MBind M := fun A B f m w =>
  match m w with
  | (Ok a, w') => f a w'
  | (Raise e, w') => (Raise e, w')
  end.

(** A pure step that may raise. *)
Definition lift {A : Type} (r : result A) : M A := fun w => (r, w).

(** ** The cache and the lookups *)

Definition set_idx_to_ti_map (doc : Doc) : M unit := fun w =>
  match _chr2tok doc with
  | Ok d => (Ok tt, mkWorld (Some d) (subscripted w))
  | Raise e => (Raise e, w)
  end.

(** Reading the attribute [doc._._idx_to_ti_map]. *)
Definition read_idx_to_ti_map : M (option (gmap Z nat)) :=
  fun w => (Ok (_idx_to_ti_map w), w).

Definition get_idx_to_ti_map (doc : Doc) : M (option (gmap Z nat)) :=
  cached ← read_idx_to_ti_map;
  _ ← (if cached is None then set_idx_to_ti_map doc else mret tt);
  read_idx_to_ti_map.

(** [table[k]] on the value of the [idx_to_ti_map] attribute. *)
Definition subscript (table : option (gmap Z nat)) (k : Z) : M nat := fun w =>
  let w' := mkWorld (_idx_to_ti_map w) (subscripted w ++ [k]) in
  match table with
  | None => (Raise TypeError, w')
  | Some d =>
      match d !! k with
      | Some i => (Ok i, w')
      | None => (Raise (KeyError k), w')
      end
  end.

Definition get_ti_from_idx (doc : Doc) (idx : Z) : M nat :=
  table ← get_idx_to_ti_map doc;
  subscript table idx.

Definition get_tok_from_idx (doc : Doc) (idx : Z) : M Token :=
  table ← get_idx_to_ti_map doc;
  i ← subscript table idx;
  lift (doc_getitem doc (Z.of_nat i)).

Definition get_span_from_idxs (doc : Doc) (idx_start idx_end : Z) : M Span :=
  start_i ← get_ti_from_idx doc idx_start;
  if idx_start =? idx_end then mret (doc_slice doc start_i start_i)
  else
    end_i ← get_ti_from_idx doc (idx_end - 1);
    mret (doc_slice doc start_i (end_i + 1)).

(** ** The regex engine *)

(** Modelled from the spec: [re.finditer(pattern, string, flags)] of the
    external engine. It raises on a pattern it cannot compile, before
    scanning; otherwise it reports the half-open character intervals of
    its matches in scanning order. The engine is deterministic, so the
    matches it would report one by one are given as a list. *)
Definition regex_engine : Type := string -> string -> Z -> result (list (Z * Z)).

(** Modelled from the spec: what the engine promises about the matches
    it reports on a text of length [n]: every match lies inside the
    text, and a match starts no earlier than the previous one ends. *)
Fixpoint matches_from (lo n : Z) (ms : list (Z * Z)) : bool :=
  match ms with
  | [] => true
  | (s, e) :: rest => (lo <=? s) && (s <=? e) && (e <=? n) && matches_from e n rest
  end.

Definition matches_ok (n : Z) (ms : list (Z * Z)) : bool := matches_from 0 n ms.

(** ** Generators and the four search operations *)

(** A generator object of this module: created and not yet advanced,
    suspended at the [yield] inside its loop with the matches still to
    come, or finished. *)
Inductive generator : Type :=
  | doc_created (doc : Doc) (pattern : string) (flags : Z)
  | doc_suspended (doc : Doc) (ms : list (Z * Z))
  | span_created (span : Span) (pattern : string) (flags : Z)
  | span_suspended (span : Span) (span_start_idx : Z) (ms : list (Z * Z))
  | finished.

Definition doc_finditer (doc : Doc) (pattern : string) (flags : Z) : generator :=
  doc_created doc pattern flags.

Definition span_finditer (span : Span) (pattern : string) (flags : Z) : generator :=
  span_created span pattern flags.

(** The loop of [doc_finditer], from its head to the next [yield]. *)
Definition doc_loop (doc : Doc) (ms : list (Z * Z)) : M (option (Span * generator)) :=
  match ms with
  | [] => mret None
  | (s, e) :: rest =>
      x ← get_span_from_idxs doc s e;
      mret (Some (x, doc_suspended doc rest))
  end.

(** The loop of [span_finditer], from its head to the next [yield]. *)
Definition span_loop (span : Span) (span_start_idx : Z) (ms : list (Z * Z))
  : M (option (Span * generator)) :=
  match ms with
  | [] => mret None
  | (s, e) :: rest =>
      let start := s + span_start_idx in
      let end_ := e + span_start_idx in
      x ← get_span_from_idxs (span_doc span) start end_;
      mret (Some (x, span_suspended span span_start_idx rest))
  end.

Section Search.

Variable re_finditer : regex_engine.

(** [next(g)]: [Some (x, g')] when the generator yields [x] and is left
    as [g'], [None] when it is exhausted; an exception leaves it
    finished. *)
Definition next (g : generator) : M (option (Span * generator)) :=
  match g with
  | doc_created doc pattern flags =>
      ms ← lift (re_finditer pattern (doc_text doc) flags);
      doc_loop doc ms
  | doc_suspended doc ms => doc_loop doc ms
  | span_created span pattern flags =>
      first ← lift (span_first span);
      let span_start_idx := idx first in
      ms ← lift (re_finditer pattern (span_text span) flags);
      span_loop span span_start_idx ms
  | span_suspended span span_start_idx ms => span_loop span span_start_idx ms
  | finished => mret None
  end.

(** The number of elements a generator can still yield. *)
Definition pending (g : generator) : nat :=
  match g with
  | doc_created doc pattern flags =>
      match re_finditer pattern (doc_text doc) flags with
      | Ok ms => length ms
      | Raise _ => 0
      end
  | span_created span pattern flags =>
      match re_finditer pattern (span_text span) flags with
      | Ok ms => length ms
      | Raise _ => 0
      end
  | doc_suspended _ ms | span_suspended _ _ ms => length ms
  | finished => 0
  end%nat.

(** Advance a generator until it is exhausted, at most [fuel] times. *)
Fixpoint drain (fuel : nat) (g : generator) : M (list Span) :=
  match fuel with
  | O => mret []
  | S fuel' =>
      r ← next g;
      match r with
      | None => mret []
      | Some (x, g') => xs ← drain fuel' g'; mret (x :: xs)
      end
  end.

(** [list(g)]. *)
Definition py_list (g : generator) : M (list Span) := drain (S (pending g)) g.

Definition doc_findall (doc : Doc) (pattern : string) (flags : Z) : M (list Span) :=
  py_list (doc_finditer doc pattern flags).

Definition span_findall (span : Span) (pattern : string) (flags : Z) : M (list Span) :=
  py_list (span_finditer span pattern flags).

End Search.

(** ** Sample data *)

(** The text ["ab  cd"] with the tokens ["ab"] at 0 and ["cd"] at 4. *)
Definition ex_doc : Doc :=
  mkDoc [mkToken 0 "ab"; mkToken 4 "cd"] "ab  cd".

(** The text ["ab cd"] with the tokens ["ab"] at 0 and ["cd"] at 3. *)
Definition two_words : Doc :=
  mkDoc [mkToken 0 "ab"; mkToken 3 "cd"] "ab cd".

(** The text ["ab "], whose only token ["ab"] is followed by a space. *)
Definition trailing_space : Doc :=
  mkDoc [mkToken 0 "ab"] "ab ".

(** A document without tokens. *)
Definition empty_doc : Doc := mkDoc [] "".

(** The text ["  ab cd"], whose first token ["ab"] starts at offset 2. *)
Definition indented : Doc :=
  mkDoc [mkToken 2 "ab"; mkToken 5 "cd"] "  ab cd".

(** A store whose cached table is not the table of any sample document. *)
Definition stale : world := mkWorld (Some {[ 0 := 7%nat ]}) [].

(** Left-to-right, non-overlapping occurrences of a plain pattern in
    [s], from offset [pos]; [skip] characters of a reported occurrence
    are still to be stepped over. The empty pattern occurs at every
    offset, the end of the text included. *)
Fixpoint scan (pattern s : string) (pos : Z) (skip : nat) : list (Z * Z) :=
  match s with
  | EmptyString => if (String.length pattern =? 0)%nat then [(pos, pos)] else []
  | String _ s' =>
      match skip with
      | S k => scan pattern s' (pos + 1) k
      | O =>
          if String.prefix pattern s
          then (pos, pos + Py.len pattern)
                 :: scan pattern s' (pos + 1) (Nat.pred (String.length pattern))
          else scan pattern s' (pos + 1) 0
      end
  end.

(** A small engine for the examples: a pattern of plain characters
    matches itself; a pattern with an opening parenthesis is refused, as
    the unterminated group ["("] is by the real engine. *)
Definition literal_engine : regex_engine := fun pattern s flags =>
  if Py.contains "(" pattern then Raise re_error else Ok (scan pattern s 0 0).

(** ** Specification-level notions used in the statements *)

(** The end of the last token's character span, the last offset
    [_chr2tok] walks; [-1] when there is no token. *)
Definition index_end (doc : Doc) : Z :=
  match last (doc_tokens doc) with
  | Some tok => tok_end tok
  | None => -1
  end.

(** The token position the walk of [_chr2tok] holds after offset [n],
    over the seeded table [d0]: the position seeded at the nearest
    seeded offset in [[0, n]], and [0] when there is none. *)
Fixpoint owner (d0 : gmap Z nat) (n : nat) : nat :=
  match d0 !! Z.of_nat n with
  | Some j => j
  | None =>
      match n with
      | O => 0%nat
      | S m => owner d0 m
      end
  end.

(** What subscripting the document's offset table at [o] evaluates to:
    the lookup of an offset, as a function of the document alone. *)
Definition Lookup (doc : Doc) (o : Z) : result nat :=
  match _chr2tok doc with
  | Raise e => Raise e
  | Ok d =>
      match d !! o with
      | Some i => Ok i
      | None => Raise (KeyError o)
      end
  end.

(** The store after a lookup at [o]: the table is cached and the key
    recorded, unless building the table raised. *)
Definition after_lookup (doc : Doc) (o : Z) (w : world) : world :=
  match _chr2tok doc with
  | Ok d => mkWorld (Some d) (subscripted w ++ [o])
  | Raise _ => w
  end.

(** The resolver as the specification words it: a zero-width interval
    gives the empty span at the token of its offset; any other interval
    gives the span from the token of its first offset through the token
    of its last included offset. *)
Definition Resolve (doc : Doc) (char_start char_end : Z) : result Span :=
  match Lookup doc char_start with
  | Raise x => Raise x
  | Ok token_start_index =>
      if char_start =? char_end then Ok (mkSpan doc token_start_index token_start_index)
      else
        match Lookup doc (char_end - 1) with
        | Raise x => Raise x
        | Ok last_index => Ok (mkSpan doc token_start_index (last_index + 1))
        end
  end.

(** [Resolve] along a list of intervals, stopping at the first failure. *)
Fixpoint Resolve_all (doc : Doc) (ms : list (Z * Z)) : result (list Span) :=
  match ms with
  | [] => Ok []
  | (s, e) :: rest =>
      match Resolve doc s e with
      | Raise x => Raise x
      | Ok sp =>
          match Resolve_all doc rest with
          | Raise x => Raise x
          | Ok sps => Ok (sp :: sps)
          end
      end
  end.

(** Resolving a list of character intervals in order, stopping at the
    first that raises. *)
Fixpoint resolve_all (doc : Doc) (ms : list (Z * Z)) : M (list Span) :=
  match ms with
  | [] => mret []
  | (s, e) :: rest =>
      x ← get_span_from_idxs doc s e;
      xs ← resolve_all doc rest;
      mret (x :: xs)
  end.

(** A span-local match moved to document offsets. *)
Definition shift_match (k : Z) (m : Z * Z) : Z * Z := (m.1 + k, m.2 + k).

(** The store holds nothing or the table of this document. *)
Definition consistent (doc : Doc) (w : world) : Prop :=
  forall d, _idx_to_ti_map w = Some d -> _chr2tok doc = Ok d.

(** The bound the ordering check carries from the previous token. *)
Definition above (prev : option Token) (z : Z) : Prop :=
  match prev with
  | None => 0 <= z
  | Some p => idx p < z
  end.

(** Seeded positions grow with the offsets. *)
Definition seed_monotone (d0 : gmap Z nat) : Prop :=
  forall o1 o2 j1 j2, d0 !! o1 = Some j1 -> d0 !! o2 = Some j2 -> o1 <= o2 -> (j1 <= j2)%nat.

(** ** Facts about the token order *)

Lemma tokens_after_above prev toks j b :
  tokens_after prev toks -> toks !! j = Some b -> above prev (idx b).
Proof.
  revert prev j. induction toks as [|tok rest IH]; intros prev j Hord Hj.
  - done.
  - simpl in Hord. apply andb_True in Hord as [Hhd Hrest].
    assert (Habove : above prev (idx tok)).
    { destruct prev; simpl in *.
      - apply andb_True in Hhd as [Hlt _]. by apply Is_true_true, Z.ltb_lt in Hlt.
      - by apply Is_true_true, Z.leb_le in Hhd. }
    destruct j as [|j]; simpl in Hj.
    + by inversion Hj; subst.
    + specialize (IH (Some tok) j Hrest Hj). simpl in IH.
      destruct prev; simpl in *; lia.
Qed.

Lemma tokens_after_increasing prev toks i j a b :
  tokens_after prev toks -> (i < j)%nat ->
  toks !! i = Some a -> toks !! j = Some b -> idx a < idx b.
Proof.
  revert prev i j. induction toks as [|tok rest IH]; intros prev i j Hord Hij Hi Hj.
  - done.
  - simpl in Hord. apply andb_True in Hord as [_ Hrest].
    destruct j as [|j]; [lia|]. simpl in Hj.
    destruct i as [|i]; simpl in Hi.
    + inversion Hi; subst. exact (tokens_after_above (Some a) rest j b Hrest Hj).
    + apply (IH (Some tok) i j); [done | lia | done | done].
Qed.

Lemma tokens_ordered_increasing toks i j a b :
  tokens_ordered toks -> (i < j)%nat ->
  toks !! i = Some a -> toks !! j = Some b -> idx a < idx b.
Proof. apply tokens_after_increasing. Qed.

Lemma tokens_ordered_nonneg toks j b :
  tokens_ordered toks -> toks !! j = Some b -> 0 <= idx b.
Proof. apply (tokens_after_above None). Qed.

Lemma len_nonneg s : 0 <= Py.len s.
Proof. unfold Py.len. lia. Qed.

Lemma last_lookup_pred (toks : list Token) tok :
  last toks = Some tok -> toks !! Nat.pred (length toks) = Some tok.
Proof. intros H. by rewrite <- last_lookup. Qed.

Lemma tokens_ordered_le_last toks j b lt :
  tokens_ordered toks -> toks !! j = Some b -> last toks = Some lt ->
  idx b <= idx lt.
Proof.
  intros Hord Hj Hlast. apply last_lookup_pred in Hlast.
  pose proof (lookup_lt_Some _ _ _ Hj) as Hlen.
  destruct (decide (j = Nat.pred (length toks))) as [->|Hne].
  - rewrite Hj in Hlast. inversion Hlast; subst. lia.
  - assert (idx b < idx lt); [|lia].
    apply (tokens_ordered_increasing toks j (Nat.pred (length toks))); [done | lia | done | done].
Qed.

(** ** Facts about the seeded table *)

Lemma seed_from_lookup i toks d o j :
  seed_from i toks d !! o = Some j ->
  d !! o = Some j \/
  exists tok, (i <= j)%nat /\ toks !! (j - i)%nat = Some tok /\ idx tok = o.
Proof.
  revert i d. induction toks as [|tok rest IH]; intros i d H; simpl in H.
  - by left.
  - apply IH in H as [H | (tok' & Hle & Hl & Ho)].
    + destruct (decide (idx tok = o)) as [Heq|Hne].
      * rewrite Heq, lookup_insert_eq in H. inversion H; subst.
        right. exists tok. rewrite Nat.sub_diag. done.
      * rewrite lookup_insert_ne in H by done. by left.
    + right. exists tok'. split; [lia|]. split; [|done].
      replace (j - i)%nat with (S (j - S i)) by lia. done.
Qed.

Lemma seed_lookup toks o j :
  seed toks !! o = Some j -> exists tok, toks !! j = Some tok /\ idx tok = o.
Proof.
  intros H. apply seed_from_lookup in H as [H | (tok & _ & Hl & Ho)].
  - by rewrite lookup_empty in H.
  - exists tok. by rewrite Nat.sub_0_r in Hl.
Qed.

Lemma seed_ordered_monotone toks : tokens_ordered toks -> seed_monotone (seed toks).
Proof.
  intros Hord o1 o2 j1 j2 H1 H2 Hle.
  apply seed_lookup in H1 as (t1 & Hl1 & <-).
  apply seed_lookup in H2 as (t2 & Hl2 & <-).
  destruct (decide (j1 <= j2)%nat) as [|Hgt]; [done|].
  assert (idx t2 < idx t1); [|lia].
  apply (tokens_ordered_increasing toks j2 j1); [done | lia | done | done].
Qed.

(** ** Facts about the walk *)

Lemma owner_eq d0 n :
  owner d0 n =
  match d0 !! Z.of_nat n with
  | Some j => j
  | None => match n with O => 0%nat | S m => owner d0 m end
  end.
Proof. by destruct n. Qed.

Lemma owner_cases d0 n :
  owner d0 n = 0%nat \/ exists m, (m <= n)%nat /\ d0 !! Z.of_nat m = Some (owner d0 n).
Proof.
  induction n as [|n IH]; rewrite owner_eq.
  - destruct (d0 !! Z.of_nat 0) as [j|] eqn:E; [|by left].
    right. exists 0%nat. split; [lia|done].
  - destruct (d0 !! Z.of_nat (S n)) as [j|] eqn:E.
    + right. exists (S n). split; [lia|done].
    + destruct IH as [IH | (m & Hm & IH)]; [by left|].
      right. exists m. split; [lia|done].
Qed.

Lemma owner_step_mono d0 n : seed_monotone d0 -> (owner d0 n <= owner d0 (S n))%nat.
Proof.
  intros Hmono. rewrite (owner_eq d0 (S n)).
  destruct (d0 !! Z.of_nat (S n)) as [j|] eqn:E; [|done].
  destruct (owner_cases d0 n) as [-> | (m & Hm & Hl)]; [lia|].
  apply (Hmono _ _ _ _ Hl E). lia.
Qed.

Lemma owner_mono d0 m n : seed_monotone d0 -> (m <= n)%nat -> (owner d0 m <= owner d0 n)%nat.
Proof.
  intros Hmono Hle. induction Hle as [|n Hle IH]; [done|].
  etransitivity; [exact IH|]. by apply owner_step_mono.
Qed.

Lemma owner_bound toks n : toks <> [] -> (owner (seed toks) n < length toks)%nat.
Proof.
  intros Hne. destruct (owner_cases (seed toks) n) as [-> | (m & _ & Hl)].
  - destruct toks; [done|]. simpl. lia.
  - apply seed_lookup in Hl as (tok & Hl & _). by apply lookup_lt_Some in Hl.
Qed.

Lemma range_S (k : nat) : Py.range (Z.of_nat (S k)) = Py.range (Z.of_nat k) ++ [Z.of_nat k].
Proof.
  unfold Py.range. rewrite !Nat2Z.id, seq_S, fmap_app. done.
Qed.

(** The state of the walk after the offsets below [k]. *)
Lemma walk_spec d0 (k : nat) :
  let st := fold_left chr2tok_step (Py.range (Z.of_nat k)) (d0, 0%nat) in
  (forall o, st.1 !! o =
             if decide (0 <= o < Z.of_nat k) then Some (owner d0 (Z.to_nat o)) else d0 !! o) /\
  st.2 = match k with O => 0%nat | S m => owner d0 m end.
Proof.
  induction k as [|k [IHd IHi]].
  - simpl. split; [|done]. intros o. case_decide; [lia|done].
  - rewrite range_S, fold_left_app.
    set (st := fold_left chr2tok_step (Py.range (Z.of_nat k)) (d0, 0%nat)) in *.
    simpl. unfold chr2tok_step.
    assert (Hk : st.1 !! Z.of_nat k = d0 !! Z.of_nat k).
    { rewrite IHd. case_decide; [lia|done]. }
    assert (Hown : owner d0 k = match d0 !! Z.of_nat k with Some j => j | None => st.2 end).
    { rewrite IHi, owner_eq. destruct (d0 !! Z.of_nat k); [done|]. by destruct k. }
    rewrite Hk. destruct (d0 !! Z.of_nat k) as [j|] eqn:E; simpl.
    + split; [|done]. intros o. rewrite IHd.
      destruct (decide (o = Z.of_nat k)) as [->|Hne].
      * rewrite Nat2Z.id, Hown. repeat case_decide; try lia; done.
      * repeat case_decide; try lia; done.
    + split; [|done]. intros o.
      destruct (decide (o = Z.of_nat k)) as [->|Hne].
      * rewrite lookup_insert_eq, Nat2Z.id, Hown. case_decide; [done|lia].
      * rewrite lookup_insert_ne by done. rewrite IHd.
        repeat case_decide; try lia; done.
Qed.

Lemma doc_getitem_last doc :
  doc_getitem doc (-1) =
  match last (doc_tokens doc) with Some tok => Ok tok | None => Raise IndexError end.
Proof.
  unfold doc_getitem, doc_len. rewrite last_lookup.
  destruct (doc_tokens doc) as [|t l] eqn:E; [done|].
  simpl length. change (-1 <? 0) with true. cbv iota.
  replace (Z.to_nat (-1 + Z.of_nat (S (length l)))) with (Nat.pred (S (length l))) by lia.
  destruct (_ && _) eqn:Hb.
  - done.
  - apply andb_false_iff in Hb as [Hb|Hb]; [apply Z.leb_gt in Hb | apply Z.ltb_ge in Hb]; lia.
Qed.

(** The table [_chr2tok] returns, offset by offset. *)
Lemma chr2tok_lookup doc d o :
  _chr2tok doc = Ok d ->
  d !! o = if decide (0 <= o <= index_end doc)
           then Some (owner (seed (doc_tokens doc)) (Z.to_nat o))
           else seed (doc_tokens doc) !! o.
Proof.
  unfold _chr2tok, index_end. rewrite doc_getitem_last.
  destruct (last (doc_tokens doc)) as [lt|]; [|done].
  intros [= <-]. fold (tok_end lt).
  destruct (decide (0 <= tok_end lt + 1)) as [Hpos|Hneg].
  - destruct (walk_spec (seed (doc_tokens doc)) (Z.to_nat (tok_end lt + 1))) as [Hd _].
    rewrite Z2Nat.id in Hd by done. rewrite Hd.
    repeat case_decide; try lia; done.
  - replace (Py.range (tok_end lt + 1)) with (@nil Z).
    + simpl. case_decide; [lia|done].
    + unfold Py.range. by replace (Z.to_nat (tok_end lt + 1)) with 0%nat by lia.
Qed.

Lemma chr2tok_nonempty doc :
  doc_tokens doc <> [] -> exists d, _chr2tok doc = Ok d.
Proof.
  intros Hne. unfold _chr2tok. rewrite doc_getitem_last.
  destruct (last (doc_tokens doc)) eqn:E; [eauto|].
  apply last_None in E. done.
Qed.

Lemma chr2tok_empty doc :
  doc_tokens doc = [] -> _chr2tok doc = Raise IndexError.
Proof. intros H. unfold _chr2tok. rewrite doc_getitem_last, H. done. Qed.

(** ** Facts about the cache and the lookups *)

Lemma consistent_fresh doc : consistent doc fresh.
Proof. intros d H. discriminate H. Qed.

Lemma get_ti_from_idx_spec doc o w :
  consistent doc w ->
  get_ti_from_idx doc o w = (Lookup doc o, after_lookup doc o w).
Proof.
  intros Hc. unfold get_ti_from_idx, get_idx_to_ti_map, Lookup, after_lookup.
  unfold mbind, M_bind, read_idx_to_ti_map, set_idx_to_ti_map, mret, M_ret, subscript.
  destruct w as [[d|] log]; simpl.
  - rewrite (Hc d eq_refl). by destruct (d !! o).
  - destruct (_chr2tok doc) as [d|e]; simpl; [|done]. by destruct (d !! o).
Qed.

Lemma after_lookup_consistent doc o w :
  consistent doc w -> consistent doc (after_lookup doc o w).
Proof.
  intros Hc d. unfold after_lookup.
  destruct (_chr2tok doc) as [d'|e] eqn:E; simpl; [|by rewrite <- E; apply Hc].
  by intros [= <-].
Qed.

Lemma after_lookup_subscripted doc o w :
  subscripted (after_lookup doc o w) =
  subscripted w ++ (if _chr2tok doc is Ok _ then [o] else []).
Proof.
  unfold after_lookup. destruct (_chr2tok doc); simpl; [done|]. by rewrite app_nil_r.
Qed.

Lemma get_span_from_idxs_spec doc s e w :
  consistent doc w ->
  get_span_from_idxs doc s e w =
  match Lookup doc s with
  | Raise x => (Raise x, after_lookup doc s w)
  | Ok a =>
      if s =? e then (Ok (mkSpan doc a a), after_lookup doc s w)
      else
        match Lookup doc (e - 1) with
        | Raise x => (Raise x, after_lookup doc (e - 1) (after_lookup doc s w))
        | Ok b => (Ok (mkSpan doc a (b + 1)), after_lookup doc (e - 1) (after_lookup doc s w))
        end
  end.
Proof.
  intros Hc. unfold get_span_from_idxs, mbind, M_bind.
  rewrite get_ti_from_idx_spec by done.
  destruct (Lookup doc s) as [a|x]; [|done].
  destruct (s =? e); [done|].
  rewrite get_ti_from_idx_spec by (by apply after_lookup_consistent).
  by destruct (Lookup doc (e - 1)).
Qed.

Lemma get_span_from_idxs_consistent doc s e w :
  consistent doc w -> consistent doc (get_span_from_idxs doc s e w).2.
Proof.
  intros Hc. rewrite get_span_from_idxs_spec by done.
  destruct (Lookup doc s); [|by apply after_lookup_consistent].
  destruct (s =? e); [by apply after_lookup_consistent|].
  destruct (Lookup doc (e - 1)); simpl; by do 2 apply after_lookup_consistent.
Qed.

(** ** Facts about [Lookup] *)

Lemma Lookup_in_range doc o :
  doc_tokens doc <> [] -> 0 <= o <= index_end doc ->
  Lookup doc o = Ok (owner (seed (doc_tokens doc)) (Z.to_nat o)).
Proof.
  intros Hne Ho. unfold Lookup.
  destruct (chr2tok_nonempty doc Hne) as [d Hd]. rewrite Hd.
  rewrite (chr2tok_lookup doc d o Hd). by rewrite decide_True.
Qed.

Lemma Lookup_out_of_range doc o :
  doc_tokens doc <> [] -> tokens_ordered (doc_tokens doc) ->
  ~ (0 <= o <= index_end doc) ->
  Lookup doc o = Raise (KeyError o).
Proof.
  intros Hne Hord Ho. unfold Lookup.
  destruct (chr2tok_nonempty doc Hne) as [d Hd]. rewrite Hd.
  rewrite (chr2tok_lookup doc d o Hd). rewrite decide_False by done.
  destruct (seed (doc_tokens doc) !! o) as [j|] eqn:E; [|done].
  exfalso. apply Ho. apply seed_lookup in E as (tok & Hl & <-).
  unfold index_end. destruct (last (doc_tokens doc)) as [lt|] eqn:El.
  - pose proof (tokens_ordered_nonneg _ _ _ Hord Hl).
    pose proof (tokens_ordered_le_last _ _ _ _ Hord Hl El).
    pose proof (len_nonneg (text lt)). unfold tok_end. lia.
  - by apply last_None in El.
Qed.

Lemma Lookup_bound doc o i :
  Lookup doc o = Ok i -> (i < length (doc_tokens doc))%nat.
Proof.
  unfold Lookup. destruct (_chr2tok doc) as [d|] eqn:Hd; [|done].
  assert (Hne : doc_tokens doc <> []).
  { intros Hnil. by rewrite (chr2tok_empty doc Hnil) in Hd. }
  rewrite (chr2tok_lookup doc d o Hd). case_decide.
  - intros [= <-]. by apply owner_bound.
  - destruct (seed (doc_tokens doc) !! o) as [j|] eqn:E; [|done].
    intros [= <-]. apply seed_lookup in E as (tok & Hl & _). by apply lookup_lt_Some in Hl.
Qed.

Lemma Lookup_mono doc o1 o2 i1 i2 :
  tokens_ordered (doc_tokens doc) -> 0 <= o1 <= o2 ->
  Lookup doc o1 = Ok i1 -> Lookup doc o2 = Ok i2 -> (i1 <= i2)%nat.
Proof.
  intros Hord Ho H1 H2.
  assert (Hne : doc_tokens doc <> []).
  { intros Hnil. unfold Lookup in H1. by rewrite (chr2tok_empty doc Hnil) in H1. }
  destruct (decide (o2 <= index_end doc)) as [Hin|Hout].
  - rewrite Lookup_in_range in H1, H2 by (done || lia).
    inversion H1; inversion H2; subst.
    apply owner_mono; [by apply seed_ordered_monotone | lia].
  - rewrite Lookup_out_of_range in H2 by (done || lia). done.
Qed.

(** ** The table maps an offset to the nearest token at or before it *)

Lemma seed_from_other i toks d o :
  (forall j b, toks !! j = Some b -> idx b <> o) ->
  seed_from i toks d !! o = d !! o.
Proof.
  revert i d. induction toks as [|t rest IH]; intros i d Hno; simpl; [done|].
  rewrite IH.
  - apply lookup_insert_ne. exact (Hno 0%nat t eq_refl).
  - intros j b Hj. exact (Hno (S j) b Hj).
Qed.

Lemma seed_from_complete prev toks i d j tok :
  tokens_after prev toks -> toks !! j = Some tok ->
  seed_from i toks d !! idx tok = Some (i + j)%nat.
Proof.
  revert prev i d j. induction toks as [|t rest IH]; intros prev i d j Hord Hj; [done|].
  simpl in Hord. apply andb_True in Hord as [_ Hrest].
  destruct j as [|j]; simpl in *.
  - inversion Hj; subst. rewrite seed_from_other.
    + rewrite lookup_insert_eq. f_equal. lia.
    + intros j b Hb. pose proof (tokens_after_above (Some tok) rest j b Hrest Hb) as Hlt.
      simpl in Hlt. lia.
  - rewrite (IH (Some t) (S i) _ j Hrest Hj). f_equal. lia.
Qed.

Lemma seed_complete toks j tok :
  tokens_ordered toks -> toks !! j = Some tok -> seed toks !! idx tok = Some j.
Proof. intros Hord Hj. exact (seed_from_complete None toks 0 ∅ j tok Hord Hj). Qed.

Lemma owner_nearest d0 n :
  (owner d0 n = 0%nat /\ forall m, (m <= n)%nat -> d0 !! Z.of_nat m = None) \/
  exists m, (m <= n)%nat /\ d0 !! Z.of_nat m = Some (owner d0 n) /\
            forall m', (m < m' <= n)%nat -> d0 !! Z.of_nat m' = None.
Proof.
  induction n as [|n IH]; rewrite owner_eq.
  - destruct (d0 !! Z.of_nat 0) as [j|] eqn:E.
    + right. exists 0%nat. split; [lia|]. split; [done|]. intros m' Hm'. lia.
    + left. split; [done|]. intros m Hm. by replace m with 0%nat by lia.
  - destruct (d0 !! Z.of_nat (S n)) as [j|] eqn:E.
    + right. exists (S n). split; [lia|]. split; [done|]. intros m' Hm'. lia.
    + destruct IH as [[H0 Hnone] | (m & Hm & Hl & Hnone)].
      * left. split; [done|]. intros m Hm.
        destruct (decide (m = S n)) as [->|]; [done|]. apply Hnone. lia.
      * right. exists m. split; [lia|]. split; [done|]. intros m' Hm'.
        destruct (decide (m' = S n)) as [->|]; [done|]. apply Hnone. lia.
Qed.

(** Inside the indexed range the lookup returns a token of the
    document; every later token starts after the offset, and the token
    itself starts at or before the offset unless the offset precedes the
    first token. *)
Lemma Lookup_nearest doc o a :
  tokens_ordered (doc_tokens doc) -> 0 <= o <= index_end doc ->
  Lookup doc o = Ok a ->
  exists tok, doc_tokens doc !! a = Some tok /\
    ((exists t0, doc_tokens doc !! 0%nat = Some t0 /\ idx t0 <= o) -> idx tok <= o) /\
    (forall j b, (a < j)%nat -> doc_tokens doc !! j = Some b -> o < idx b).
Proof.
  intros Hord Ho Ha.
  assert (Hne : doc_tokens doc <> []).
  { intros Hnil. unfold Lookup in Ha. by rewrite (chr2tok_empty doc Hnil) in Ha. }
  pose proof (Lookup_bound doc o a Ha) as Hlt.
  destruct (lookup_lt_is_Some_2 _ _ Hlt) as [tok Htok].
  exists tok. split; [done|].
  assert (Hown : owner (seed (doc_tokens doc)) (Z.to_nat o) = a).
  { rewrite Lookup_in_range in Ha by done. congruence. }
  clear Ha.
  assert (Hseen : forall j b, doc_tokens doc !! j = Some b -> idx b <= o ->
            seed (doc_tokens doc) !! Z.of_nat (Z.to_nat (idx b)) = Some j /\
            (Z.to_nat (idx b) <= Z.to_nat o)%nat).
  { intros j b Hb Hle. pose proof (tokens_ordered_nonneg _ _ _ Hord Hb).
    rewrite Z2Nat.id by done. split; [by apply seed_complete | lia]. }
  destruct (owner_nearest (seed (doc_tokens doc)) (Z.to_nat o))
    as [[H0 Hnone] | (m & Hm & Hl & Hnone)].
  - split.
    + intros (t0 & Ht0 & Hle). destruct (Hseen 0%nat t0 Ht0 Hle) as [Hs Hb].
      by rewrite (Hnone _ Hb) in Hs.
    + intros j b Hj Hb. destruct (decide (o < idx b)) as [|Hge]; [done|].
      destruct (Hseen j b Hb ltac:(lia)) as [Hs Hbnd]. by rewrite (Hnone _ Hbnd) in Hs.
  - rewrite Hown in Hl. apply seed_lookup in Hl as (tok' & Htok' & Hidx).
    rewrite Htok in Htok'. inversion Htok'; subst tok'. split; [lia|].
    intros j b Hj Hb. destruct (decide (o < idx b)) as [|Hge]; [done|].
    pose proof (tokens_ordered_increasing _ _ _ _ _ Hord Hj Htok Hb) as Hinc.
    destruct (Hseen j b Hb ltac:(lia)) as [Hs Hbnd].
    rewrite (Hnone (Z.to_nat (idx b))) in Hs by lia. done.
Qed.

(** A resolved interval lies between the start of the first covered
    token and the start of the first token after the span. *)
Lemma Resolve_covers doc char_start char_end sp :
  tokens_ordered (doc_tokens doc) ->
  0 <= char_start -> char_start < char_end -> char_end - 1 <= index_end doc ->
  Resolve doc char_start char_end = Ok sp ->
  exists tok, doc_tokens doc !! span_start sp = Some tok /\
    ((exists t0, doc_tokens doc !! 0%nat = Some t0 /\ idx t0 <= char_start) ->
     idx tok <= char_start) /\
    (forall j b, (span_end sp <= j)%nat -> doc_tokens doc !! j = Some b -> char_end <= idx b).
Proof.
  intros Hord H0 Hlt Hend. unfold Resolve.
  destruct (Lookup doc char_start) as [a|] eqn:Ha; [|done].
  destruct (char_start =? char_end) eqn:E; [apply Z.eqb_eq in E; lia|].
  destruct (Lookup doc (char_end - 1)) as [b|] eqn:Hb; [|done].
  intros [= <-]. simpl.
  destruct (Lookup_nearest doc char_start a Hord ltac:(lia) Ha) as (tok & Htok & Hstart & _).
  destruct (Lookup_nearest doc (char_end - 1) b Hord ltac:(lia) Hb) as (_ & _ & _ & Hafter).
  exists tok. split; [done|]. split; [done|].
  intros j t Hj Ht. specialize (Hafter j t ltac:(lia) Ht). lia.
Qed.

(** ** Facts about the generators *)

Section SearchFacts.

Variable re_finditer : regex_engine.

Lemma drain_doc_suspended doc ms fuel w :
  (length ms < fuel)%nat ->
  drain re_finditer fuel (doc_suspended doc ms) w = resolve_all doc ms w.
Proof.
  revert fuel w. induction ms as [|[s e] rest IH]; intros fuel w Hlen.
  - destruct fuel; [simpl in Hlen; lia | done].
  - destruct fuel as [|fuel]; [simpl in Hlen; lia|].
    simpl. unfold mbind, M_bind.
    destruct (get_span_from_idxs doc s e w) as [[x|err] w1]; [|done].
    simpl. rewrite IH by (simpl in Hlen; lia). done.
Qed.

Lemma drain_span_suspended span k ms fuel w :
  (length ms < fuel)%nat ->
  drain re_finditer fuel (span_suspended span k ms) w =
  resolve_all (span_doc span) (shift_match k <$> ms) w.
Proof.
  revert fuel w. induction ms as [|[s e] rest IH]; intros fuel w Hlen.
  - destruct fuel; [simpl in Hlen; lia | done].
  - destruct fuel as [|fuel]; [simpl in Hlen; lia|].
    simpl. unfold mbind, M_bind.
    destruct (get_span_from_idxs (span_doc span) (s + k) (e + k) w) as [[x|err] w1]; [|done].
    simpl. rewrite IH by (simpl in Hlen; lia). done.
Qed.

(** Draining a created [doc_finditer]. *)
Lemma drain_doc_created doc pattern flags fuel w :
  (pending re_finditer (doc_created doc pattern flags) < fuel)%nat ->
  drain re_finditer fuel (doc_created doc pattern flags) w =
  match re_finditer pattern (doc_text doc) flags with
  | Raise e => (Raise e, w)
  | Ok ms => resolve_all doc ms w
  end.
Proof.
  intros Hlen. destruct fuel as [|fuel]; [lia|].
  simpl in *. unfold mbind, M_bind, lift.
  destruct (re_finditer pattern (doc_text doc) flags) as [ms|err]; [|done].
  destruct ms as [|[s e] rest]; [done|].
  simpl. unfold mbind, M_bind.
  destruct (get_span_from_idxs doc s e w) as [[x|err] w1]; [|done].
  simpl. rewrite drain_doc_suspended by (simpl in Hlen; lia). done.
Qed.

(** Draining a created [span_finditer]. *)
Lemma drain_span_created span pattern flags fuel w :
  (pending re_finditer (span_created span pattern flags) < fuel)%nat ->
  drain re_finditer fuel (span_created span pattern flags) w =
  match span_first span with
  | Raise e => (Raise e, w)
  | Ok first =>
      match re_finditer pattern (span_text span) flags with
      | Raise e => (Raise e, w)
      | Ok ms => resolve_all (span_doc span) (shift_match (idx first) <$> ms) w
      end
  end.
Proof.
  intros Hlen. destruct fuel as [|fuel]; [lia|].
  simpl in *. unfold mbind, M_bind, lift.
  destruct (span_first span) as [first|err]; [|done].
  destruct (re_finditer pattern (span_text span) flags) as [ms|err]; [|done].
  destruct ms as [|[s e] rest]; [done|].
  simpl. unfold mbind, M_bind.
  destruct (get_span_from_idxs (span_doc span) (s + idx first) (e + idx first) w)
    as [[x|err] w1]; [|done].
  simpl. rewrite drain_span_suspended by (simpl in Hlen; lia). done.
Qed.

(** The fuel [py_list] gives [drain] is enough: more changes nothing. *)
Lemma drain_enough g fuel w :
  (pending re_finditer g < fuel)%nat ->
  drain re_finditer fuel g w = py_list re_finditer g w.
Proof.
  intros Hlen. unfold py_list. destruct g.
  - rewrite !drain_doc_created by lia. done.
  - rewrite !drain_doc_suspended by (simpl in *; lia). done.
  - rewrite !drain_span_created by lia. done.
  - rewrite !drain_span_suspended by (simpl in *; lia). done.
  - destruct fuel; [lia|done].
Qed.

(** [list(g)] advances [g] once and goes on with what is left of it. *)
Lemma py_list_unfold g w :
  py_list re_finditer g w =
  (r ← next re_finditer g;
   match r with
   | None => mret []
   | Some (x, g') => xs ← py_list re_finditer g'; mret (x :: xs)
   end) w.
Proof.
  unfold py_list at 1. simpl. unfold mbind, M_bind.
  destruct (next re_finditer g w) as [[[[x g']|]|err] w1] eqn:E; [|done|done].
  rewrite drain_enough; [done|].
  destruct g; simpl in *; unfold mbind, M_bind, lift in E.
  - destruct (re_finditer pattern (doc_text doc) flags) as [ms|]; [|done].
    destruct ms as [|[s e] rest]; [done|]. simpl in E. unfold mbind, M_bind in E.
    destruct (get_span_from_idxs doc s e w) as [[y|] w2]; [|done].
    inversion E; subst. simpl. lia.
  - destruct ms as [|[s e] rest]; [done|]. simpl in E. unfold mbind, M_bind in E.
    destruct (get_span_from_idxs doc s e w) as [[y|] w2]; [|done].
    inversion E; subst. simpl. lia.
  - destruct (span_first span) as [first|]; [|done].
    destruct (re_finditer pattern (span_text span) flags) as [ms|]; [|done].
    destruct ms as [|[s e] rest]; [done|]. simpl in E. unfold mbind, M_bind in E.
    destruct (get_span_from_idxs (span_doc span) (s + idx first) (e + idx first) w)
      as [[y|] w2]; [|done].
    inversion E; subst. simpl. lia.
  - destruct ms as [|[s e] rest]; [done|]. simpl in E. unfold mbind, M_bind in E.
    destruct (get_span_from_idxs (span_doc span) (s + span_start_idx) (e + span_start_idx) w)
      as [[y|] w2]; [|done].
    inversion E; subst. simpl. lia.
  - done.
Qed.

Lemma doc_findall_spec doc pattern flags w :
  doc_findall re_finditer doc pattern flags w =
  match re_finditer pattern (doc_text doc) flags with
  | Raise e => (Raise e, w)
  | Ok ms => resolve_all doc ms w
  end.
Proof. unfold doc_findall, py_list, doc_finditer. by rewrite drain_doc_created by lia. Qed.

Lemma span_findall_spec span pattern flags w :
  span_findall re_finditer span pattern flags w =
  match span_first span with
  | Raise e => (Raise e, w)
  | Ok first =>
      match re_finditer pattern (span_text span) flags with
      | Raise e => (Raise e, w)
      | Ok ms => resolve_all (span_doc span) (shift_match (idx first) <$> ms) w
      end
  end.
Proof. unfold span_findall, py_list, span_finditer. by rewrite drain_span_created by lia. Qed.

End SearchFacts.

(** ** The resolver against its contract *)

Lemma get_span_from_idxs_Resolve doc s e w :
  consistent doc w -> (get_span_from_idxs doc s e w).1 = Resolve doc s e.
Proof.
  intros Hc. rewrite get_span_from_idxs_spec by done. unfold Resolve.
  destruct (Lookup doc s); [|done]. destruct (s =? e); [done|].
  by destruct (Lookup doc (e - 1)).
Qed.

Lemma resolve_all_Resolve_all doc ms w :
  consistent doc w ->
  (resolve_all doc ms w).1 = Resolve_all doc ms /\ consistent doc (resolve_all doc ms w).2.
Proof.
  revert w. induction ms as [|[s e] rest IH]; intros w Hc; [done|].
  simpl. unfold mbind, M_bind.
  pose proof (get_span_from_idxs_Resolve doc s e w Hc) as Hr.
  pose proof (get_span_from_idxs_consistent doc s e w Hc) as Hc1.
  destruct (get_span_from_idxs doc s e w) as [[x|err] w1]; simpl in *; rewrite <- Hr; [|done].
  destruct (IH w1 Hc1) as [Hrest Hc2].
  destruct (resolve_all doc rest w1) as [[xs|err] w2]; simpl in *; rewrite <- Hrest; done.
Qed.

(** The resolver relative to [Lookup]. On a zero-width interval
    [(k, k)] it returns the empty span at [Lookup k] and subscripts the
    table at no offset but [k], so never at [k - 1]; on an interval with
    [char_start < char_end] it returns the span from [Lookup char_start]
    to [Lookup (char_end - 1) + 1]. A failing lookup fails the resolver
    in the same way; inside the indexed range, which ends with the last
    token and not with the text, neither fails. *)
Theorem get_span_from_idxs_contract doc w k char_start char_end :
  consistent doc w -> char_start < char_end ->
  (get_span_from_idxs doc k k w).1 =
    match Lookup doc k with
    | Ok i => Ok (mkSpan doc i i)
    | Raise x => Raise x
    end
  /\ (exists ks, subscripted (get_span_from_idxs doc k k w).2 = subscripted w ++ ks
                 /\ k - 1 ∉ ks)
  /\ (get_span_from_idxs doc char_start char_end w).1 =
     match Lookup doc char_start, Lookup doc (char_end - 1) with
     | Ok i, Ok j => Ok (mkSpan doc i (j + 1))
     | Ok _, Raise x => Raise x
     | Raise x, _ => Raise x
     end
  /\ (doc_tokens doc <> [] -> 0 <= k <= index_end doc ->
      exists i, (get_span_from_idxs doc k k w).1 = Ok (mkSpan doc i i))
  /\ (doc_tokens doc <> [] -> 0 <= char_start -> char_end - 1 <= index_end doc ->
      exists i j, (get_span_from_idxs doc char_start char_end w).1 = Ok (mkSpan doc i (j + 1))).
Proof.
  intros Hc Hlt.
  assert (Hne : (char_start =? char_end) = false) by (apply Z.eqb_neq; lia).
  split; [|split; [|split; [|split]]].
  - rewrite get_span_from_idxs_spec by done.
    destruct (Lookup doc k); [|done]. by rewrite Z.eqb_refl.
  - rewrite get_span_from_idxs_spec by done.
    exists (if _chr2tok doc is Ok _ then [k] else []).
    split.
    + destruct (Lookup doc k); [rewrite Z.eqb_refl|]; simpl; apply after_lookup_subscripted.
    + destruct (_chr2tok doc); [|apply not_elem_of_nil].
      rewrite list_elem_of_singleton. lia.
  - rewrite get_span_from_idxs_spec by done.
    destruct (Lookup doc char_start); [|done]. rewrite Hne.
    by destruct (Lookup doc (char_end - 1)).
  - intros Hdoc Hk. rewrite get_span_from_idxs_Resolve by done.
    unfold Resolve. rewrite Lookup_in_range by done. rewrite Z.eqb_refl. eauto.
  - intros Hdoc Hs He. rewrite get_span_from_idxs_Resolve by done.
    unfold Resolve. rewrite !Lookup_in_range by (done || lia). rewrite Hne. eauto.
Qed.

Lemma get_span_from_idxs_contract_witness :
  consistent ex_doc fresh /\ 1 < 5 /\
  (get_span_from_idxs ex_doc 2 2 fresh).1 =
    match Lookup ex_doc 2 with
    | Ok i => Ok (mkSpan ex_doc i i)
    | Raise x => Raise x
    end /\
  (exists ks, subscripted (get_span_from_idxs ex_doc 2 2 fresh).2 = subscripted fresh ++ ks
              /\ 2 - 1 ∉ ks).
Proof.
  assert (Hc : consistent ex_doc fresh) by (intros d H; discriminate H).
  assert (Hlt : 1 < 5) by lia.
  pose proof (get_span_from_idxs_contract ex_doc fresh 2 1 5 Hc Hlt) as H.
  split; [exact Hc|]. split; [exact Hlt|].
  split; [exact (proj1 H) | exact (proj1 (proj2 H))].
Defined.

(** C9. On a document with at least one token, whose tokens are ordered,
    resolving an interval with [char_start < char_end] whose offsets lie
    in the indexed range returns a span, and the span is not empty:
    its end is beyond its start. *)
Theorem get_span_from_idxs_nonempty doc w char_start char_end :
  doc_tokens doc <> [] -> tokens_ordered (doc_tokens doc) -> consistent doc w ->
  0 <= char_start -> char_start < char_end -> char_end - 1 <= index_end doc ->
  exists sp, (get_span_from_idxs doc char_start char_end w).1 = Ok sp /\
             (span_start sp < span_end sp)%nat.
Proof.
  intros Hne Hord Hc H0 Hlt Hend.
  rewrite get_span_from_idxs_Resolve by done. unfold Resolve.
  destruct (Lookup doc char_start) as [i|] eqn:Hi;
    [|by rewrite Lookup_in_range in Hi by (done || lia)].
  destruct (Lookup doc (char_end - 1)) as [j|] eqn:Hj;
    [|by rewrite Lookup_in_range in Hj by (done || lia)].
  destruct (char_start =? char_end) eqn:E; [apply Z.eqb_eq in E; lia|].
  eexists. split; [done|]. simpl.
  assert (i <= j)%nat; [|lia].
  apply (Lookup_mono doc char_start (char_end - 1)); [done | lia | done | done].
Qed.

Lemma get_span_from_idxs_nonempty_witness :
  exists sp, (get_span_from_idxs ex_doc 1 5 fresh).1 = Ok sp /\
             (span_start sp < span_end sp)%nat.
Proof.
  apply (get_span_from_idxs_nonempty ex_doc fresh 1 5).
  - discriminate.
  - exact I.
  - intros d H; discriminate H.
  - lia.
  - lia.
  - vm_compute. discriminate.
Defined.

(** ** The worked scenario *)

(** C8. On the text ["ab  cd"] tokenized as ["ab"] at (0,2) and ["cd"]
    at (4,6), a well-formed document, the character range (1,5)
    resolves to the span [[0,2)] of both tokens and the zero-width range
    (2,2), in the gap, to the empty span [[0,0)] at token 0. *)
Theorem scenario_ab_cd w :
  consistent ex_doc w ->
  doc_ok ex_doc = true /\
  (get_span_from_idxs ex_doc 1 5 w).1 = Ok (mkSpan ex_doc 0 2) /\
  (get_span_from_idxs ex_doc 2 2 w).1 = Ok (mkSpan ex_doc 0 0).
Proof.
  intros Hc. rewrite !get_span_from_idxs_Resolve by done.
  split; [reflexivity|]. split; vm_compute; reflexivity.
Qed.

Lemma scenario_ab_cd_witness :
  (get_span_from_idxs ex_doc 1 5 fresh).1 = Ok (mkSpan ex_doc 0 2) /\
  (get_span_from_idxs ex_doc 2 2 fresh).1 = Ok (mkSpan ex_doc 0 0).
Proof.
  refine (proj2 (scenario_ab_cd fresh _)).
  intros d H; discriminate H.
Defined.

(** ** The search operations *)

Section SearchTheorems.

Variable re_finditer : regex_engine.

(** C10. On an empty span (start equal to end) the first advance of
    [span_finditer] raises [IndexError] when it reads the span's first
    token, whatever the pattern, the flags and the engine; nothing is
    matched or looked up, and [span_findall] fails the same way. *)
Theorem span_finditer_empty_span doc i pattern flags w :
  next re_finditer (span_finditer (mkSpan doc i i) pattern flags) w = (Raise IndexError, w)
  /\ span_findall re_finditer (mkSpan doc i i) pattern flags w = (Raise IndexError, w).
Proof.
  assert (Hf : span_first (mkSpan doc i i) = Raise IndexError).
  { unfold span_first. simpl. by rewrite Nat.ltb_irrefl. }
  split.
  - simpl. unfold mbind, M_bind, lift. by rewrite Hf.
  - by rewrite span_findall_spec, Hf.
Qed.

(** What a resolved span refers to: tokens of the owning document. *)
Lemma Resolve_coordinates doc s e x :
  Resolve doc s e = Ok x ->
  span_doc x = doc /\ Lookup doc s = Ok (span_start x) /\
  (span_start x < length (doc_tokens doc))%nat /\
  (span_end x <= length (doc_tokens doc))%nat.
Proof.
  unfold Resolve. destruct (Lookup doc s) as [a|] eqn:Ha; [|done].
  pose proof (Lookup_bound doc s a Ha).
  destruct (s =? e).
  - intros [= <-]. simpl. repeat split; (done || lia).
  - destruct (Lookup doc (e - 1)) as [b|] eqn:Hb; [|done].
    pose proof (Lookup_bound doc (e - 1) b Hb).
    intros [= <-]. simpl. repeat split; (done || lia).
Qed.

(** C3. On a span whose first token can be read (a non-empty span of
    its document), with [ms] the matches the engine reports on the
    span's text: the first advance of [span_finditer] enters the loop
    over [ms] with the first token's offset as shift; when the match
    [(local_start, local_end)] is next, the advance yields
    [Resolve] of the document at both offsets plus the first token's
    offset, and leaves the later matches pending; drained,
    [span_findall] is the list of these resolutions. Every span so
    resolved belongs to the owning document and its bounds are token
    positions of that document. *)
Theorem span_finditer_resolves span pattern flags first ms k local_start local_end w w' :
  span_first span = Ok first ->
  re_finditer pattern (span_text span) flags = Ok ms ->
  ms !! k = Some (local_start, local_end) ->
  consistent (span_doc span) w -> consistent (span_doc span) w' ->
  let doc := span_doc span in
  let absolute_start := local_start + idx first in
  let absolute_end := local_end + idx first in
  next re_finditer (span_finditer span pattern flags) w =
    next re_finditer (span_suspended span (idx first) ms) w
  /\ next re_finditer (span_suspended span (idx first) (drop k ms)) w' =
     (x ← get_span_from_idxs doc absolute_start absolute_end;
      mret (Some (x, span_suspended span (idx first) (drop (S k) ms)))) w'
  /\ (get_span_from_idxs doc absolute_start absolute_end w').1 =
     Resolve doc absolute_start absolute_end
  /\ (span_findall re_finditer span pattern flags w).1 =
     Resolve_all doc (shift_match (idx first) <$> ms)
  /\ (forall x, Resolve doc absolute_start absolute_end = Ok x ->
      span_doc x = doc /\ Lookup doc absolute_start = Ok (span_start x) /\
      (span_start x < length (doc_tokens doc))%nat /\
      (span_end x <= length (doc_tokens doc))%nat).
Proof.
  intros Hfirst Hre Hk Hc Hc'. cbv zeta.
  split; [|split; [|split; [|split]]].
  - simpl. unfold mbind, M_bind, lift. by rewrite Hfirst, Hre.
  - rewrite (drop_S _ _ _ Hk). done.
  - by apply get_span_from_idxs_Resolve.
  - rewrite span_findall_spec, Hfirst, Hre. by apply resolve_all_Resolve_all.
  - intros x Hx. by apply Resolve_coordinates in Hx.
Qed.

(** Token starts along a list of spans. *)
Lemma Resolve_all_sorted doc n ms lo spans :
  tokens_ordered (doc_tokens doc) -> 0 <= lo ->
  matches_from lo n ms -> Resolve_all doc ms = Ok spans ->
  StronglySorted le (span_start <$> spans) /\
  Forall2 (fun m x => Lookup doc m.1 = Ok (span_start x)) ms spans /\
  forall o i, 0 <= o <= lo -> Lookup doc o = Ok i ->
              Forall (fun x => (i <= span_start x)%nat) spans.
Proof.
  intros Hord. revert lo spans.
  induction ms as [|[s e] rest IH]; intros lo spans Hlo Hms Hres.
  - inversion Hres; subst. simpl. repeat split; constructor.
  - simpl in Hms, Hres.
    apply andb_True in Hms as [Hms Hrest]. apply andb_True in Hms as [Hms He].
    apply andb_True in Hms as [Hs Hse].
    apply Is_true_true, Z.leb_le in Hs. apply Is_true_true, Z.leb_le in Hse.
    destruct (Resolve doc s e) as [sp|] eqn:Hsp; [|done].
    destruct (Resolve_all doc rest) as [sps|] eqn:Hsps; [|done].
    inversion Hres; subst. clear Hres.
    destruct (IH e sps ltac:(lia) Hrest eq_refl) as (Hsorted & Hall & Hlow).
    destruct (Resolve_coordinates doc s e sp Hsp) as (_ & Hstart & _).
    repeat split.
    + simpl. constructor; [done|].
      apply Forall_fmap. apply (Hlow s (span_start sp)); [lia|done].
    + constructor; done.
    + intros o i Ho Hi. constructor.
      * apply (Lookup_mono doc o s); [done | lia | done | done].
      * apply (Hlow o i); [lia|done].
Qed.

(** C7. When [doc_findall] succeeds on a document whose tokens are
    ordered, for matches the engine reports left to right without
    overlap inside the text, the spans it returns stand in the order of
    the matches, one per match and starting at the token of the match's
    first offset, and their start tokens never decrease. *)
Theorem doc_findall_order doc pattern flags ms spans w :
  tokens_ordered (doc_tokens doc) -> consistent doc w ->
  re_finditer pattern (doc_text doc) flags = Ok ms ->
  matches_ok (doc_char_length doc) ms ->
  (doc_findall re_finditer doc pattern flags w).1 = Ok spans ->
  StronglySorted le (span_start <$> spans) /\
  Forall2 (fun m x => Lookup doc m.1 = Ok (span_start x)) ms spans.
Proof.
  intros Hord Hc Hre Hms Hres.
  rewrite doc_findall_spec, Hre in Hres.
  destruct (resolve_all_Resolve_all doc ms w Hc) as [Hall _]. rewrite Hall in Hres.
  destruct (Resolve_all_sorted doc (doc_char_length doc) ms 0 spans Hord ltac:(lia) Hms Hres)
    as (H1 & H2 & _).
  done.
Qed.

(** C6, as the code has it. When the engine refuses the pattern,
    advancing [doc_finditer] raises the engine's error at once and
    [doc_findall] raises it too, on every document; [span_finditer] and
    [span_findall] do so on every span whose first token can be read.
    The store is untouched: nothing was matched, looked up or yielded. *)
Theorem invalid_pattern_fails_first doc span first pattern flags w :
  (forall s, re_finditer pattern s flags = Raise re_error) ->
  span_first span = Ok first ->
  next re_finditer (doc_finditer doc pattern flags) w = (Raise re_error, w)
  /\ doc_findall re_finditer doc pattern flags w = (Raise re_error, w)
  /\ next re_finditer (span_finditer span pattern flags) w = (Raise re_error, w)
  /\ span_findall re_finditer span pattern flags w = (Raise re_error, w).
Proof.
  intros Hbad Hfirst. repeat split.
  - simpl. unfold mbind, M_bind, lift. by rewrite Hbad.
  - by rewrite doc_findall_spec, Hbad.
  - simpl. unfold mbind, M_bind, lift. by rewrite Hfirst, Hbad.
  - by rewrite span_findall_spec, Hfirst, Hbad.
Qed.

End SearchTheorems.

Lemma span_finditer_resolves_witness :
  span_first (mkSpan two_words 1 2) = Ok (mkToken 3 "cd")
  /\ literal_engine "d" (span_text (mkSpan two_words 1 2)) 0 = Ok [(1, 2)]
  /\ (span_findall literal_engine (mkSpan two_words 1 2) "d" 0 fresh).1 =
     Resolve_all two_words [(4, 5)]
  /\ Resolve two_words 4 5 = Ok (mkSpan two_words 1 2).
Proof.
  assert (Hc : consistent two_words fresh) by (intros d H; discriminate H).
  assert (Hfirst : span_first (mkSpan two_words 1 2) = Ok (mkToken 3 "cd")) by reflexivity.
  assert (Hre : literal_engine "d" (span_text (mkSpan two_words 1 2)) 0 = Ok [(1, 2)])
    by reflexivity.
  assert (Hk : [(1, 2)] !! 0%nat = Some (1, 2)) by reflexivity.
  pose proof (span_finditer_resolves literal_engine (mkSpan two_words 1 2) "d" 0
                (mkToken 3 "cd") [(1, 2)] 0 1 2 fresh fresh Hfirst Hre Hk Hc Hc) as H.
  split; [exact Hfirst|]. split; [exact Hre|].
  split; [exact (proj1 (proj2 (proj2 (proj2 H)))) | vm_compute; reflexivity].
Defined.

Lemma doc_findall_order_witness :
  (doc_findall literal_engine ex_doc "" 0 fresh).1 =
    Ok [mkSpan ex_doc 0 0; mkSpan ex_doc 0 0; mkSpan ex_doc 0 0; mkSpan ex_doc 0 0;
        mkSpan ex_doc 1 1; mkSpan ex_doc 1 1; mkSpan ex_doc 1 1]
  /\ StronglySorted le [0; 0; 0; 0; 1; 1; 1]%nat.
Proof.
  assert (Hord : tokens_ordered (doc_tokens ex_doc)) by exact I.
  assert (Hc : consistent ex_doc fresh) by (intros d H; discriminate H).
  assert (Hre : literal_engine "" (doc_text ex_doc) 0 =
                Ok [(0, 0); (1, 1); (2, 2); (3, 3); (4, 4); (5, 5); (6, 6)]) by reflexivity.
  assert (Hms : matches_ok (doc_char_length ex_doc)
                  [(0, 0); (1, 1); (2, 2); (3, 3); (4, 4); (5, 5); (6, 6)]) by exact I.
  assert (Hres : (doc_findall literal_engine ex_doc "" 0 fresh).1 =
                 Ok [mkSpan ex_doc 0 0; mkSpan ex_doc 0 0; mkSpan ex_doc 0 0; mkSpan ex_doc 0 0;
                     mkSpan ex_doc 1 1; mkSpan ex_doc 1 1; mkSpan ex_doc 1 1])
    by (vm_compute; reflexivity).
  split; [exact Hres|].
  exact (proj1 (doc_findall_order literal_engine ex_doc "" 0 _ _ fresh Hord Hc Hre Hms Hres)).
Defined.

Lemma invalid_pattern_fails_first_witness :
  (forall s, literal_engine "(" s 0 = Raise re_error)
  /\ span_first (mkSpan two_words 0 1) = Ok (mkToken 0 "ab")
  /\ next literal_engine (doc_finditer two_words "(" 0) fresh = (Raise re_error, fresh)
  /\ doc_findall literal_engine two_words "(" 0 fresh = (Raise re_error, fresh)
  /\ next literal_engine (span_finditer (mkSpan two_words 0 1) "(" 0) fresh
     = (Raise re_error, fresh)
  /\ span_findall literal_engine (mkSpan two_words 0 1) "(" 0 fresh = (Raise re_error, fresh).
Proof.
  assert (Hbad : forall s, literal_engine "(" s 0 = Raise re_error) by (intros s; reflexivity).
  assert (Hfirst : span_first (mkSpan two_words 0 1) = Ok (mkToken 0 "ab")) by reflexivity.
  split; [exact Hbad|]. split; [exact Hfirst|].
  exact (invalid_pattern_fails_first literal_engine two_words (mkSpan two_words 0 1)
           (mkToken 0 "ab") "(" 0 fresh Hbad Hfirst).
Defined.

(** C6 as stated fails: on the empty span [[0,0)] of ["ab cd"], with a
    pattern the engine refuses, advancing [span_finditer] and calling
    [span_findall] raise [IndexError], not the engine's error. *)
Lemma invalid_pattern_empty_span_counterexample :
  (forall s, literal_engine "(" s 0 = Raise re_error)
  /\ (next literal_engine (span_finditer (mkSpan two_words 0 0) "(" 0) fresh).1
     = Raise IndexError
  /\ (span_findall literal_engine (mkSpan two_words 0 0) "(" 0 fresh).1 = Raise IndexError
  /\ (next literal_engine (span_finditer (mkSpan two_words 0 0) "(" 0) fresh).1
     <> Raise re_error.
Proof.
  split; [intros s; reflexivity|].
  split; [reflexivity|]. split; [reflexivity|]. discriminate.
Qed.

(** ** Documents without tokens *)

(** C5 as stated fails: on a document without tokens [_chr2tok] returns
    no table, empty or not; it raises [IndexError]. *)
Lemma chr2tok_empty_doc_counterexample :
  doc_tokens empty_doc = [] /\ _chr2tok empty_doc = Raise IndexError
  /\ ~ (exists d, _chr2tok empty_doc = Ok d).
Proof.
  split; [reflexivity|]. split; [reflexivity|]. intros [d H]. discriminate H.
Qed.

(** C5, as the code has it. On a document without tokens building the
    table raises [IndexError] and nothing is cached; every lookup on that
    document, at every offset, raises the same [IndexError] and returns
    no token position, and so does every lookup after it; the resolver
    fails the same way. *)
Theorem empty_document_lookups_fail doc w o o' s e :
  doc_tokens doc = [] -> consistent doc w ->
  _chr2tok doc = Raise IndexError
  /\ get_ti_from_idx doc o w = (Raise IndexError, w)
  /\ get_ti_from_idx doc o' (get_ti_from_idx doc o w).2 = (Raise IndexError, w)
  /\ get_span_from_idxs doc s e w = (Raise IndexError, w)
  /\ _idx_to_ti_map w = None.
Proof.
  intros Hnil Hc. pose proof (chr2tok_empty doc Hnil) as Hb.
  assert (Hl : forall k v, get_ti_from_idx doc k v = (Raise IndexError, v) \/ ~ consistent doc v).
  { intros k v. destruct (_idx_to_ti_map v) as [d|] eqn:E.
    - right. intros Hv. specialize (Hv d E). by rewrite Hb in Hv.
    - left. unfold get_ti_from_idx, get_idx_to_ti_map, mbind, M_bind, read_idx_to_ti_map,
        set_idx_to_ti_map. by rewrite E, Hb. }
  assert (Ho : get_ti_from_idx doc o w = (Raise IndexError, w)).
  { by destruct (Hl o w). }
  split; [done|]. split; [done|]. rewrite Ho. simpl. split.
  - by destruct (Hl o' w).
  - split.
    + unfold get_span_from_idxs, mbind, M_bind. destruct (Hl s w) as [->|]; done.
    + destruct (_idx_to_ti_map w) as [d|] eqn:E; [|done].
      specialize (Hc d E). by rewrite Hb in Hc.
Qed.

Lemma empty_document_lookups_fail_witness :
  get_ti_from_idx empty_doc 0 fresh = (Raise IndexError, fresh)
  /\ get_span_from_idxs empty_doc 0 0 fresh = (Raise IndexError, fresh).
Proof.
  assert (Hnil : doc_tokens empty_doc = []) by reflexivity.
  assert (Hc : consistent empty_doc fresh) by (intros d H; discriminate H).
  pose proof (empty_document_lookups_fail empty_doc fresh 0 0 0 0 Hnil Hc) as H.
  split; [exact (proj1 (proj2 H)) | exact (proj1 (proj2 (proj2 (proj2 H))))].
Defined.

(** ** Offsets at the end of the text *)

(** Inside the range [_chr2tok] walks every lookup succeeds; on a
    document whose tokens are ordered every lookup outside it raises
    [KeyError]. *)
Lemma Lookup_total_iff doc o :
  doc_tokens doc <> [] -> tokens_ordered (doc_tokens doc) ->
  (0 <= o <= index_end doc -> exists i, Lookup doc o = Ok i) /\
  (~ (0 <= o <= index_end doc) -> Lookup doc o = Raise (KeyError o)).
Proof.
  intros Hne Hord. split; intros Ho.
  - rewrite Lookup_in_range by done. eauto.
  - by apply Lookup_out_of_range.
Qed.

(** C4 at a text that ends in a space: the document ["ab "], with its
    one token ["ab"], is well formed and its text has length 3, yet the
    lookup at offset 3 raises [KeyError]; the table ends at offset 2,
    the end of the last token. The empty match the engine reports at the
    end of the text makes [doc_findall] raise that error. *)
Theorem lookup_at_text_end_fails :
  doc_ok trailing_space = true
  /\ doc_tokens trailing_space <> []
  /\ doc_char_length trailing_space = 3
  /\ index_end trailing_space = 2
  /\ Lookup trailing_space 3 = Raise (KeyError 3)
  /\ (get_ti_from_idx trailing_space 3 fresh).1 = Raise (KeyError 3)
  /\ literal_engine "" (doc_text trailing_space) 0 = Ok [(0, 0); (1, 1); (2, 2); (3, 3)]
  /\ (doc_findall literal_engine trailing_space "" 0 fresh).1 = Raise (KeyError 3).
Proof.
  split; [reflexivity|]. split; [discriminate|].
  repeat split; vm_compute; reflexivity.
Qed.

(** C1 at a zero-width interval at the end of a text that ends in a
    space. On the well-formed document ["ab "] the pair (3,3) is valid,
    [0 <= 3 <= 3 <= len(doc.text)], and it is the last match the engine
    reports for the empty pattern; the resolver returns no span for it,
    empty or not: it raises [KeyError 3], because the one lookup it
    makes, at offset 3, falls past the end of the table. At the valid
    pairs before it, (2,2) and (2,3), it returns the spans the contract
    names. *)
Theorem resolve_at_text_end_fails :
  doc_ok trailing_space = true
  /\ 0 <= 3 <= doc_char_length trailing_space
  /\ literal_engine "" (doc_text trailing_space) 0 = Ok [(0, 0); (1, 1); (2, 2); (3, 3)]
  /\ (get_span_from_idxs trailing_space 3 3 fresh).1 = Raise (KeyError 3)
  /\ (forall sp, (get_span_from_idxs trailing_space 3 3 fresh).1 <> Ok sp)
  /\ subscripted (get_span_from_idxs trailing_space 3 3 fresh).2 = [3]
  /\ (get_span_from_idxs trailing_space 2 2 fresh).1 = Ok (mkSpan trailing_space 0 0)
  /\ (get_span_from_idxs trailing_space 2 3 fresh).1 = Ok (mkSpan trailing_space 0 1).
Proof.
  split; [reflexivity|]. split; [vm_compute; split; discriminate|].
  split; [reflexivity|]. split; [vm_compute; reflexivity|].
  split; [intros sp; vm_compute; discriminate|].
  repeat split; vm_compute; reflexivity.
Qed.

(** ** Matches that end in whitespace *)

(** C2 at a match of whitespace: in ["ab cd"] the space at (2,3) resolves
    to the span [[0,1)], whose text is ["ab"]; the matched substring
    [" "] does not occur in it. *)
Theorem whitespace_match_not_contained :
  doc_ok two_words = true
  /\ literal_engine " " (doc_text two_words) 0 = Ok [(2, 3)]
  /\ (get_span_from_idxs two_words 2 3 fresh).1 = Ok (mkSpan two_words 0 1)
  /\ (doc_findall literal_engine two_words " " 0 fresh).1 = Ok [mkSpan two_words 0 1]
  /\ span_text (mkSpan two_words 0 1) = "ab"
  /\ Py.slice (doc_text two_words) 2 3 = " "
  /\ Py.contains (Py.slice (doc_text two_words) 2 3) (span_text (mkSpan two_words 0 1)) = false.
Proof. repeat split; vm_compute; reflexivity. Qed.

(** ** The cache *)

Lemma get_ti_from_idx_cached doc o w d :
  _idx_to_ti_map w = Some d ->
  get_ti_from_idx doc o w =
  (match d !! o with Some i => Ok i | None => Raise (KeyError o) end,
   mkWorld (Some d) (subscripted w ++ [o])).
Proof.
  intros Hd. unfold get_ti_from_idx, get_idx_to_ti_map, mbind, M_bind, read_idx_to_ti_map,
    mret, M_ret, subscript.
  rewrite Hd. simpl. rewrite Hd. by destruct (d !! o).
Qed.

Lemma get_span_from_idxs_cached doc s e w d :
  _idx_to_ti_map w = Some d -> _idx_to_ti_map (get_span_from_idxs doc s e w).2 = Some d.
Proof.
  intros Hd. unfold get_span_from_idxs, mbind, M_bind.
  rewrite (get_ti_from_idx_cached doc s w d Hd).
  destruct (d !! s); [|done]. destruct (s =? e); [done|].
  rewrite (get_ti_from_idx_cached doc (e - 1) (mkWorld (Some d) (subscripted w ++ [s])) d)
    by done.
  by destruct (d !! (e - 1)).
Qed.

Lemma resolve_all_cached doc ms w d :
  _idx_to_ti_map w = Some d -> _idx_to_ti_map (resolve_all doc ms w).2 = Some d.
Proof.
  revert w. induction ms as [|[s e] rest IH]; intros w Hd; [done|].
  simpl. unfold mbind, M_bind.
  pose proof (get_span_from_idxs_cached doc s e w d Hd) as H1.
  destruct (get_span_from_idxs doc s e w) as [[x|err] w1]; [|done].
  pose proof (IH w1 H1) as H2.
  by destruct (resolve_all doc rest w1) as [[xs|err] w2].
Qed.

(** X1. Getting the table twice is getting it once: the second call
    returns what the first returned and leaves the store as the first
    left it. The call never returns [None], never subscripts the table,
    and on a store without a table it caches the table [_chr2tok]
    builds. *)
Theorem get_idx_to_ti_map_idempotent doc w :
  get_idx_to_ti_map doc (get_idx_to_ti_map doc w).2 = get_idx_to_ti_map doc w
  /\ (get_idx_to_ti_map doc w).1 <> Ok None
  /\ (forall d, (get_idx_to_ti_map doc w).1 = Ok (Some d) ->
                _idx_to_ti_map (get_idx_to_ti_map doc w).2 = Some d)
  /\ (forall d, _idx_to_ti_map w = None -> _chr2tok doc = Ok d ->
                get_idx_to_ti_map doc w = (Ok (Some d), mkWorld (Some d) (subscripted w)))
  /\ subscripted (get_idx_to_ti_map doc w).2 = subscripted w.
Proof.
  unfold get_idx_to_ti_map, mbind, M_bind, read_idx_to_ti_map, set_idx_to_ti_map, mret, M_ret.
  destruct w as [[d0|] log]; simpl.
  - repeat split; try done. by intros d [= <-].
  - destruct (_chr2tok doc) as [d0|err]; simpl.
    + repeat split; try done.
      * by intros d [= <-].
      * by intros d _ [= <-].
    + repeat split; done.
Qed.

Section CacheKept.

Variable re_finditer : regex_engine.

(** X2. Once a table is cached the lookup answers from it, whatever
    the document, without building anything; and no lookup, resolution,
    advance of a generator or search replaces the cached table. *)
Theorem filled_cache_is_kept doc span g pattern flags o s e w d :
  _idx_to_ti_map w = Some d ->
  get_ti_from_idx doc o w =
    (match d !! o with Some i => Ok i | None => Raise (KeyError o) end,
     mkWorld (Some d) (subscripted w ++ [o]))
  /\ _idx_to_ti_map (get_span_from_idxs doc s e w).2 = Some d
  /\ _idx_to_ti_map (next re_finditer g w).2 = Some d
  /\ _idx_to_ti_map (doc_findall re_finditer doc pattern flags w).2 = Some d
  /\ _idx_to_ti_map (span_findall re_finditer span pattern flags w).2 = Some d.
Proof.
  intros Hd.
  assert (Hdoc : forall dc ms, _idx_to_ti_map (doc_loop dc ms w).2 = Some d).
  { intros dc [|[a b] rest]; simpl; [done|]. unfold mbind, M_bind.
    pose proof (get_span_from_idxs_cached dc a b w d Hd) as H1.
    by destruct (get_span_from_idxs dc a b w) as [[x|err] w1]. }
  assert (Hspan : forall sp k ms, _idx_to_ti_map (span_loop sp k ms w).2 = Some d).
  { intros sp k [|[a b] rest]; simpl; [done|]. unfold mbind, M_bind.
    pose proof (get_span_from_idxs_cached (span_doc sp) (a + k) (b + k) w d Hd) as H1.
    by destruct (get_span_from_idxs (span_doc sp) (a + k) (b + k) w) as [[x|err] w1]. }
  split; [by apply get_ti_from_idx_cached|].
  split; [by apply get_span_from_idxs_cached|].
  split; [|split].
  - destruct g as [dc p f|dc ms|sp p f|sp k ms|]; simpl; unfold mbind, M_bind, lift; try done.
    + destruct (re_finditer p (doc_text dc) f); [apply Hdoc|done].
    + destruct (span_first sp); [|done].
      destruct (re_finditer p (span_text sp) f); [apply Hspan|done].
  - rewrite doc_findall_spec.
    destruct (re_finditer pattern (doc_text doc) flags); [by apply resolve_all_cached|done].
  - rewrite span_findall_spec. destruct (span_first span); [|done].
    destruct (re_finditer pattern (span_text span) flags); [by apply resolve_all_cached|done].
Qed.

End CacheKept.

Lemma filled_cache_is_kept_witness :
  _idx_to_ti_map stale = Some {[ 0 := 7%nat ]}
  /\ (get_ti_from_idx ex_doc 0 stale).1 = Ok 7%nat
  /\ _idx_to_ti_map (doc_findall literal_engine ex_doc "" 0 stale).2 = Some {[ 0 := 7%nat ]}.
Proof.
  assert (Hd : _idx_to_ti_map stale = Some {[ 0 := 7%nat ]}) by reflexivity.
  pose proof (filled_cache_is_kept literal_engine ex_doc (mkSpan ex_doc 0 1) finished "" 0
                0 0 0 stale _ Hd) as H.
  split; [exact Hd|]. split.
  - exact (f_equal fst (proj1 H)).
  - exact (proj1 (proj2 (proj2 (proj2 H)))).
Defined.

(** X3. [set_idx_to_ti_map] on a document with a token stores the table
    of that document over whatever was cached: the store is consistent
    with the document afterwards, nothing is subscripted, and lookups
    then answer as the document's own table does. *)
Theorem set_idx_to_ti_map_refreshes doc w o :
  doc_tokens doc <> [] ->
  (set_idx_to_ti_map doc w).1 = Ok tt
  /\ consistent doc (set_idx_to_ti_map doc w).2
  /\ subscripted (set_idx_to_ti_map doc w).2 = subscripted w
  /\ (get_ti_from_idx doc o (set_idx_to_ti_map doc w).2).1 = Lookup doc o.
Proof.
  intros Hne. destruct (chr2tok_nonempty doc Hne) as [d Hd].
  assert (Hc : consistent doc (set_idx_to_ti_map doc w).2).
  { unfold set_idx_to_ti_map. rewrite Hd. simpl. by intros d' [= <-]. }
  split; [unfold set_idx_to_ti_map; by rewrite Hd|].
  split; [done|].
  split; [unfold set_idx_to_ti_map; by rewrite Hd|].
  by rewrite get_ti_from_idx_spec.
Qed.

Lemma set_idx_to_ti_map_refreshes_witness :
  (get_ti_from_idx ex_doc 0 stale).1 = Ok 7%nat
  /\ (get_ti_from_idx ex_doc 0 (set_idx_to_ti_map ex_doc stale).2).1 = Lookup ex_doc 0
  /\ Lookup ex_doc 0 = Ok 0%nat.
Proof.
  assert (Hne : doc_tokens ex_doc <> []) by discriminate.
  pose proof (set_idx_to_ti_map_refreshes ex_doc stale 0 Hne) as H.
  split; [reflexivity|]. split; [exact (proj2 (proj2 (proj2 H)))|].
  vm_compute. reflexivity.
Defined.

(** ** Which token an offset belongs to *)

Lemma tokens_after_end_le_next prev toks j a b :
  tokens_after prev toks -> toks !! j = Some a -> toks !! S j = Some b ->
  tok_end a <= idx b.
Proof.
  revert prev j. induction toks as [|t rest IH]; intros prev j Hord Ha Hb; [done|].
  simpl in Hord. apply andb_True in Hord as [_ Hrest].
  destruct j as [|j]; simpl in Ha, Hb.
  - inversion Ha; subst. destruct rest as [|t' rest']; [done|].
    simpl in Hb. inversion Hb; subst. simpl in Hrest.
    apply andb_True in Hrest as [Hhd _]. apply andb_True in Hhd as [_ Hle].
    by apply Is_true_true, Z.leb_le in Hle.
  - exact (IH (Some t) j Hrest Ha Hb).
Qed.

Lemma tok_end_le_index_end doc j tok :
  tokens_ordered (doc_tokens doc) -> doc_tokens doc !! j = Some tok ->
  tok_end tok <= index_end doc.
Proof.
  intros Hord Hj. unfold index_end.
  destruct (last (doc_tokens doc)) as [lt|] eqn:El.
  - pose proof (last_lookup_pred _ _ El) as Hl.
    pose proof (lookup_lt_Some _ _ _ Hj) as Hlen.
    destruct (decide (j = Nat.pred (length (doc_tokens doc)))) as [->|Hne].
    + rewrite Hj in Hl. inversion Hl; subst. lia.
    + destruct (lookup_lt_is_Some_2 (doc_tokens doc) (S j) ltac:(lia)) as [b Hb].
      pose proof (tokens_after_end_le_next None _ j tok b Hord Hj Hb).
      pose proof (tokens_ordered_le_last _ _ _ _ Hord Hb El).
      pose proof (len_nonneg (text lt)). unfold tok_end at 2. lia.
  - apply last_None in El. by rewrite El in Hj.
Qed.

Lemma tokens_ordered_first_le toks j t0 b :
  tokens_ordered toks -> toks !! 0%nat = Some t0 -> toks !! j = Some b -> idx t0 <= idx b.
Proof.
  intros Hord H0 Hj. destruct j as [|j].
  - rewrite H0 in Hj. inversion Hj; subst. lia.
  - pose proof (tokens_ordered_increasing toks 0 (S j) t0 b Hord ltac:(lia) H0 Hj). lia.
Qed.

(** An offset from a token's start up to the next token's start belongs
    to that token. *)
Lemma Lookup_owns doc j tok o :
  tokens_ordered (doc_tokens doc) -> doc_tokens doc !! j = Some tok ->
  idx tok <= o -> o <= index_end doc ->
  (forall b, doc_tokens doc !! S j = Some b -> o < idx b) ->
  Lookup doc o = Ok j.
Proof.
  intros Hord Hj Hlo Hhi Hnext.
  assert (Hne : doc_tokens doc <> []) by (intros Hnil; by rewrite Hnil in Hj).
  pose proof (tokens_ordered_nonneg _ _ _ Hord Hj) as H0.
  destruct (lookup_lt_is_Some_2 (doc_tokens doc) 0 ltac:(destruct (doc_tokens doc); simpl; [done|lia]))
    as [t0 Ht0].
  pose proof (tokens_ordered_first_le _ _ _ _ Hord Ht0 Hj) as Hfirst.
  destruct (Lookup doc o) as [a|err] eqn:Ha;
    [|by rewrite Lookup_in_range in Ha by (done || lia)].
  destruct (Lookup_nearest doc o a Hord ltac:(lia) Ha) as (ta & Hta & Hstart & Hafter).
  specialize (Hstart ltac:(exists t0; split; [done|lia])).
  f_equal. destruct (decide (a = j)) as [|Hne']; [done|].
  destruct (decide (a < j)%nat) as [Hlt|Hge].
  - specialize (Hafter j tok Hlt Hj). lia.
  - pose proof (lookup_lt_Some _ _ _ Hta) as Hlen.
    destruct (lookup_lt_is_Some_2 (doc_tokens doc) (S j) ltac:(lia)) as [b Hb].
    specialize (Hnext b Hb).
    assert (idx b <= idx ta); [|lia].
    destruct (decide (S j = a)) as [Heq|Hneq].
    + rewrite Heq, Hta in Hb. inversion Hb; subst. lia.
    + pose proof (tokens_ordered_increasing _ (S j) a b ta Hord ltac:(lia) Hb Hta). lia.
Qed.

(** X4. On a document with a token, whose tokens are ordered, the
    lookup succeeds, with a position of the document, exactly on the
    offsets from 0 to the end of the last token; at every other offset,
    negative ones included, it raises [KeyError] with that offset. *)
Theorem get_ti_from_idx_domain doc w o :
  doc_tokens doc <> [] -> tokens_ordered (doc_tokens doc) -> consistent doc w ->
  (0 <= o <= index_end doc ->
   exists i, (get_ti_from_idx doc o w).1 = Ok i /\ (i < length (doc_tokens doc))%nat)
  /\ (~ (0 <= o <= index_end doc) -> (get_ti_from_idx doc o w).1 = Raise (KeyError o)).
Proof.
  intros Hne Hord Hc. rewrite get_ti_from_idx_spec by done. simpl. split; intros Ho.
  - rewrite Lookup_in_range by done. eexists. split; [done|]. by apply owner_bound.
  - by apply Lookup_out_of_range.
Qed.

Lemma get_ti_from_idx_domain_witness :
  (exists i, (get_ti_from_idx two_words 5 fresh).1 = Ok i
             /\ (i < length (doc_tokens two_words))%nat)
  /\ (get_ti_from_idx two_words 6 fresh).1 = Raise (KeyError 6)
  /\ (get_ti_from_idx two_words (-1) fresh).1 = Raise (KeyError (-1)).
Proof.
  assert (Hne : doc_tokens two_words <> []) by discriminate.
  assert (Hord : tokens_ordered (doc_tokens two_words)) by exact I.
  assert (Hc : consistent two_words fresh) by (intros d H; discriminate H).
  split; [|split].
  - apply (proj1 (get_ti_from_idx_domain two_words fresh 5 Hne Hord Hc)).
    vm_compute. split; discriminate.
  - apply (proj2 (get_ti_from_idx_domain two_words fresh 6 Hne Hord Hc)).
    vm_compute. intros [_ H]. by apply H.
  - apply (proj2 (get_ti_from_idx_domain two_words fresh (-1) Hne Hord Hc)).
    vm_compute. intros [H _]. by apply H.
Defined.

(** X5. With ordered tokens, every offset from the start of a token up
    to, but not including, the start of the next token looks up to that
    token's position: the token's own start, the offsets inside its
    text, and the gap after it. For the last token this runs to the end
    of its text. *)
Theorem get_ti_from_idx_owner doc w j tok o :
  tokens_ordered (doc_tokens doc) -> consistent doc w ->
  doc_tokens doc !! j = Some tok ->
  idx tok <= o -> o <= index_end doc ->
  (forall b, doc_tokens doc !! S j = Some b -> o < idx b) ->
  (get_ti_from_idx doc o w).1 = Ok j
  /\ (get_ti_from_idx doc (idx tok) w).1 = Ok j.
Proof.
  intros Hord Hc Hj Hlo Hhi Hnext. rewrite !get_ti_from_idx_spec by done. simpl.
  split; [by apply (Lookup_owns doc j tok)|].
  apply (Lookup_owns doc j tok); [done | done | lia | lia |].
  intros b Hb. specialize (Hnext b Hb). lia.
Qed.

Lemma get_ti_from_idx_owner_witness :
  (get_ti_from_idx ex_doc 3 fresh).1 = Ok 0%nat
  /\ (get_ti_from_idx ex_doc 0 fresh).1 = Ok 0%nat.
Proof.
  apply (get_ti_from_idx_owner ex_doc fresh 0 (mkToken 0 "ab") 3).
  - exact I.
  - intros d H; discriminate H.
  - reflexivity.
  - simpl; lia.
  - vm_compute; discriminate.
  - intros b Hb. injection Hb as <-. simpl. lia.
Defined.

(** X6. With ordered tokens, an offset before the start of the first
    token looks up to position 0: text that precedes the first token is
    given to the first token. *)
Theorem get_ti_from_idx_before_first doc w t0 o :
  tokens_ordered (doc_tokens doc) -> consistent doc w ->
  doc_tokens doc !! 0%nat = Some t0 -> 0 <= o < idx t0 ->
  (get_ti_from_idx doc o w).1 = Ok 0%nat.
Proof.
  intros Hord Hc Ht0 Ho. rewrite get_ti_from_idx_spec by done. simpl.
  assert (Hne : doc_tokens doc <> []) by (intros Hnil; by rewrite Hnil in Ht0).
  pose proof (tok_end_le_index_end doc 0 t0 Hord Ht0) as Hend.
  pose proof (len_nonneg (text t0)). unfold tok_end in Hend.
  rewrite Lookup_in_range by (done || lia). f_equal.
  destruct (owner_nearest (seed (doc_tokens doc)) (Z.to_nat o))
    as [[H0 _] | (m & Hm & Hl & _)]; [done|].
  apply seed_lookup in Hl as (tok & Htok & Hidx).
  pose proof (tokens_ordered_first_le _ _ _ _ Hord Ht0 Htok). lia.
Qed.

Lemma get_ti_from_idx_before_first_witness :
  (get_ti_from_idx indented 1 fresh).1 = Ok 0%nat.
Proof.
  apply (get_ti_from_idx_before_first indented fresh (mkToken 2 "ab") 1).
  - exact I.
  - intros d H; discriminate H.
  - reflexivity.
  - simpl; lia.
Defined.

(** ** The token at an offset *)

Lemma get_tok_from_idx_spec doc o w :
  consistent doc w ->
  (get_tok_from_idx doc o w).1 =
  match Lookup doc o with
  | Ok i => doc_getitem doc (Z.of_nat i)
  | Raise x => Raise x
  end.
Proof.
  intros Hc. unfold get_tok_from_idx, get_idx_to_ti_map, Lookup.
  unfold mbind, M_bind, read_idx_to_ti_map, set_idx_to_ti_map, mret, M_ret, subscript, lift.
  destruct w as [[d|] log]; simpl.
  - rewrite (Hc d eq_refl). by destruct (d !! o).
  - destruct (_chr2tok doc) as [d|e]; simpl; [|done]. by destruct (d !! o).
Qed.

Lemma doc_getitem_nat doc i tok :
  doc_tokens doc !! i = Some tok -> doc_getitem doc (Z.of_nat i) = Ok tok.
Proof.
  intros Hi. pose proof (lookup_lt_Some _ _ _ Hi) as Hlen.
  unfold doc_getitem, doc_len.
  replace (Z.of_nat i <? 0) with false by (symmetry; apply Z.ltb_ge; lia).
  replace (0 <=? Z.of_nat i) with true by (symmetry; apply Z.leb_le; lia).
  replace (Z.of_nat i <? Z.of_nat (length (doc_tokens doc))) with true
    by (symmetry; apply Z.ltb_lt; lia).
  simpl. by rewrite Nat2Z.id, Hi.
Qed.

(** X7. With ordered tokens, [get_tok_from_idx] at an offset inside a
    token's text, its first character included, returns that very
    token. *)
Theorem get_tok_from_idx_containing doc w j tok o :
  tokens_ordered (doc_tokens doc) -> consistent doc w ->
  doc_tokens doc !! j = Some tok -> idx tok <= o < tok_end tok ->
  (get_tok_from_idx doc o w).1 = Ok tok.
Proof.
  intros Hord Hc Hj Ho. rewrite get_tok_from_idx_spec by done.
  pose proof (tok_end_le_index_end doc j tok Hord Hj) as Hend.
  rewrite (Lookup_owns doc j tok o Hord Hj) by first
    [ lia | intros b Hb; pose proof (tokens_after_end_le_next None _ j tok b Hord Hj Hb); lia ].
  by apply doc_getitem_nat.
Qed.

Lemma get_tok_from_idx_containing_witness :
  (get_tok_from_idx ex_doc 5 fresh).1 = Ok (mkToken 4 "cd").
Proof.
  apply (get_tok_from_idx_containing ex_doc fresh 1 (mkToken 4 "cd") 5).
  - exact I.
  - intros d H; discriminate H.
  - reflexivity.
  - unfold tok_end, Py.len; simpl; lia.
Defined.

(** X8. On a document with a token, [get_tok_from_idx] either returns a
    token of the document or raises [KeyError] with the offset: the
    position it reads from the table is always inside the document, so
    subscripting the document never raises. On a document without
    tokens it raises [IndexError], from building the table. *)
Theorem get_tok_from_idx_outcomes doc w o :
  consistent doc w ->
  (doc_tokens doc <> [] ->
   (exists i tok, (get_tok_from_idx doc o w).1 = Ok tok /\ doc_tokens doc !! i = Some tok
                  /\ (get_ti_from_idx doc o w).1 = Ok i)
   \/ ((get_tok_from_idx doc o w).1 = Raise (KeyError o)
       /\ (get_ti_from_idx doc o w).1 = Raise (KeyError o)))
  /\ (doc_tokens doc = [] -> (get_tok_from_idx doc o w).1 = Raise IndexError).
Proof.
  intros Hc. rewrite get_tok_from_idx_spec, get_ti_from_idx_spec by done. simpl. split.
  - intros Hne. destruct (Lookup doc o) as [i|err] eqn:Hl.
    + left. pose proof (Lookup_bound doc o i Hl) as Hlt.
      destruct (lookup_lt_is_Some_2 _ _ Hlt) as [tok Htok].
      exists i, tok. split; [by apply doc_getitem_nat|done].
    + right. unfold Lookup in Hl. destruct (chr2tok_nonempty doc Hne) as [d Hd].
      rewrite Hd in Hl. destruct (d !! o); [done|]. by inversion Hl.
  - intros Hnil. unfold Lookup. by rewrite (chr2tok_empty doc Hnil).
Qed.

Lemma get_tok_from_idx_outcomes_witness :
  (get_tok_from_idx two_words 2 fresh).1 = Ok (mkToken 0 "ab")
  /\ (get_tok_from_idx two_words 9 fresh).1 = Raise (KeyError 9)
  /\ (get_tok_from_idx empty_doc 0 fresh).1 = Raise IndexError.
Proof.
  assert (Hc : consistent two_words fresh) by (intros d H; discriminate H).
  assert (He : consistent empty_doc fresh) by (intros d H; discriminate H).
  split; [vm_compute; reflexivity|]. split; [vm_compute; reflexivity|].
  exact (proj2 (get_tok_from_idx_outcomes empty_doc fresh 0 He) eq_refl).
Defined.

(** ** Intervals against tokens *)

Lemma span_text_single doc j tok :
  text_agrees doc -> doc_tokens doc !! j = Some tok ->
  span_text (mkSpan doc j (j + 1)) = text tok.
Proof.
  intros Hagree Hj. unfold span_text. simpl.
  replace (Nat.pred (j + 1)) with j by lia. rewrite Hj.
  replace (j <? j + 1)%nat with true by (symmetry; apply Nat.ltb_lt; lia).
  unfold text_agrees in Hagree. apply Is_true_true in Hagree.
  rewrite forallb_forall in Hagree.
  specialize (Hagree tok ltac:(apply list_elem_of_In; by eapply list_elem_of_lookup_2)).
  apply andb_true_iff in Hagree as [_ Heq]. by apply String.eqb_eq in Heq.
Qed.

(** X9. On a well-formed document, an interval that lies inside the
    text of one token, however short, resolves to the span of exactly
    that token, whose text is the token's text. *)
Theorem get_span_from_idxs_within_token doc w j tok char_start char_end :
  doc_ok doc -> consistent doc w ->
  doc_tokens doc !! j = Some tok ->
  idx tok <= char_start -> char_start < char_end -> char_end <= tok_end tok ->
  (get_span_from_idxs doc char_start char_end w).1 = Ok (mkSpan doc j (j + 1))
  /\ span_text (mkSpan doc j (j + 1)) = text tok.
Proof.
  intros Hok Hc Hj Hlo Hlt Hhi.
  apply andb_True in Hok as [Hord Hagree].
  split; [|by apply span_text_single].
  rewrite get_span_from_idxs_Resolve by done. unfold Resolve.
  pose proof (tok_end_le_index_end doc j tok Hord Hj) as Hend.
  assert (Hnext : forall o, o < tok_end tok ->
            forall b, doc_tokens doc !! S j = Some b -> o < idx b).
  { intros o Ho b Hb.
    pose proof (tokens_after_end_le_next None _ j tok b Hord Hj Hb). lia. }
  rewrite (Lookup_owns doc j tok char_start Hord Hj) by first [lia | apply Hnext; lia].
  rewrite (Lookup_owns doc j tok (char_end - 1) Hord Hj) by first [lia | apply Hnext; lia].
  by replace (char_start =? char_end) with false by (symmetry; apply Z.eqb_neq; lia).
Qed.

Lemma get_span_from_idxs_within_token_witness :
  (get_span_from_idxs two_words 4 5 fresh).1 = Ok (mkSpan two_words 1 (1 + 1))
  /\ span_text (mkSpan two_words 1 (1 + 1)) = "cd".
Proof.
  apply (get_span_from_idxs_within_token two_words fresh 1 (mkToken 3 "cd") 4 5).
  - exact I.
  - intros d H; discriminate H.
  - reflexivity.
  - simpl; lia.
  - lia.
  - vm_compute; discriminate.
Defined.

(** X10. With ordered tokens, a non-empty interval inside the indexed
    range that starts at or after the first token resolves to a span
    that covers it up to whitespace: the first covered token starts at
    or before the interval, and every token from the span's end on
    starts at or after the interval's end. *)
Theorem get_span_from_idxs_covers doc w t0 char_start char_end sp :
  tokens_ordered (doc_tokens doc) -> consistent doc w ->
  doc_tokens doc !! 0%nat = Some t0 -> idx t0 <= char_start ->
  char_start < char_end -> char_end - 1 <= index_end doc ->
  (get_span_from_idxs doc char_start char_end w).1 = Ok sp ->
  exists tok, doc_tokens doc !! span_start sp = Some tok
    /\ idx tok <= char_start
    /\ (forall j b, (span_end sp <= j)%nat -> doc_tokens doc !! j = Some b ->
                    char_end <= idx b).
Proof.
  intros Hord Hc Ht0 Hfirst Hlt Hend Hres.
  rewrite get_span_from_idxs_Resolve in Hres by done.
  pose proof (tokens_ordered_nonneg _ _ _ Hord Ht0) as H0.
  destruct (Resolve_covers doc char_start char_end sp Hord ltac:(lia) Hlt Hend Hres)
    as (tok & Htok & Hstart & Hafter).
  exists tok. split; [done|]. split; [|done].
  apply Hstart. by exists t0.
Qed.

Lemma get_span_from_idxs_covers_witness :
  exists tok, doc_tokens ex_doc !! 0%nat = Some tok
    /\ idx tok <= 1
    /\ (forall j b, (1 <= j)%nat -> doc_tokens ex_doc !! j = Some b -> 3 <= idx b).
Proof.
  apply (get_span_from_idxs_covers ex_doc fresh (mkToken 0 "ab") 1 3 (mkSpan ex_doc 0 1)).
  - exact I.
  - intros d H; discriminate H.
  - reflexivity.
  - simpl; lia.
  - lia.
  - vm_compute; discriminate.
  - vm_compute; reflexivity.
Defined.

(** X11. With ordered tokens, resolving is monotone: an interval that
    lies inside another resolves to a span that lies inside the span of
    the other. *)
Theorem get_span_from_idxs_monotone doc w w' char_start char_end inner_start inner_end sp sp' :
  tokens_ordered (doc_tokens doc) -> consistent doc w -> consistent doc w' ->
  0 <= char_start -> char_start <= inner_start -> inner_start < inner_end ->
  inner_end <= char_end ->
  (get_span_from_idxs doc char_start char_end w).1 = Ok sp ->
  (get_span_from_idxs doc inner_start inner_end w').1 = Ok sp' ->
  (span_start sp <= span_start sp')%nat /\ (span_end sp' <= span_end sp)%nat.
Proof.
  intros Hord Hc Hc' H0 Hs Hlt He Hres Hres'.
  rewrite get_span_from_idxs_Resolve in Hres, Hres' by done.
  unfold Resolve in Hres, Hres'.
  destruct (Lookup doc char_start) as [a|] eqn:Ha; [|done].
  destruct (Lookup doc inner_start) as [a'|] eqn:Ha'; [|done].
  replace (char_start =? char_end) with false in Hres by (symmetry; apply Z.eqb_neq; lia).
  replace (inner_start =? inner_end) with false in Hres' by (symmetry; apply Z.eqb_neq; lia).
  destruct (Lookup doc (char_end - 1)) as [b|] eqn:Hb; [|done].
  destruct (Lookup doc (inner_end - 1)) as [b'|] eqn:Hb'; [|done].
  inversion Hres; inversion Hres'; subst; simpl.
  pose proof (Lookup_mono doc char_start inner_start a a' Hord ltac:(lia) Ha Ha').
  pose proof (Lookup_mono doc (inner_end - 1) (char_end - 1) b' b Hord ltac:(lia) Hb' Hb).
  lia.
Qed.

Lemma get_span_from_idxs_monotone_witness :
  (span_start (mkSpan ex_doc 0 2) <= span_start (mkSpan ex_doc 1 2))%nat
  /\ (span_end (mkSpan ex_doc 1 2) <= span_end (mkSpan ex_doc 0 2))%nat.
Proof.
  assert (Hc : consistent ex_doc fresh) by (intros d H; discriminate H).
  apply (get_span_from_idxs_monotone ex_doc fresh fresh 1 6 4 5 _ _ I Hc Hc).
  - lia.
  - lia.
  - lia.
  - lia.
  - vm_compute; reflexivity.
  - vm_compute; reflexivity.
Defined.

(** ** Searching a whole document *)

Lemma Resolve_all_app doc ms1 ms2 :
  Resolve_all doc (ms1 ++ ms2) =
  match Resolve_all doc ms1 with
  | Raise x => Raise x
  | Ok xs =>
      match Resolve_all doc ms2 with
      | Raise x => Raise x
      | Ok ys => Ok (xs ++ ys)
      end
  end.
Proof.
  induction ms1 as [|[s e] rest IH]; simpl.
  - by destruct (Resolve_all doc ms2).
  - destruct (Resolve doc s e); [|done]. rewrite IH.
    destruct (Resolve_all doc rest); [|done]. by destruct (Resolve_all doc ms2).
Qed.

Lemma Resolve_all_in_range doc ms :
  doc_tokens doc <> [] ->
  Forall (fun m => 0 <= m.1 <= m.2 /\ m.1 <= index_end doc /\ m.2 - 1 <= index_end doc) ms ->
  exists spans, Resolve_all doc ms = Ok spans /\ length spans = length ms
    /\ Forall (fun x => span_doc x = doc /\
                        (span_end x <= length (doc_tokens doc))%nat) spans.
Proof.
  intros Hne Hall. induction Hall as [|[s e] rest (Hse & Hs & He) _ IH]; simpl in *.
  - exists []. repeat split; constructor.
  - destruct IH as (spans & Hres & Hlen & Hin).
    destruct (Resolve doc s e) as [sp|err] eqn:Hsp.
    + rewrite Hres. exists (sp :: spans). split; [done|]. split; [simpl; lia|].
      constructor; [|done].
      destruct (Resolve_coordinates doc s e sp Hsp) as (Hd & _ & _ & Hend). done.
    + exfalso. unfold Resolve in Hsp. rewrite Lookup_in_range in Hsp by (done || lia).
      destruct (s =? e) eqn:E; [done|]. apply Z.eqb_neq in E.
      rewrite Lookup_in_range in Hsp by (done || lia). done.
Qed.

Section SearchExtras.

Variable re_finditer : regex_engine.

(** X12. On a document with a token, when every match the engine
    reports lies in the indexed range, [doc_findall] raises nothing: it
    returns exactly one span per match, each a span of this document
    that ends inside it. *)
Theorem doc_findall_total doc pattern flags ms w :
  doc_tokens doc <> [] -> consistent doc w ->
  re_finditer pattern (doc_text doc) flags = Ok ms ->
  Forall (fun m => 0 <= m.1 <= m.2 /\ m.1 <= index_end doc /\ m.2 - 1 <= index_end doc) ms ->
  exists spans, (doc_findall re_finditer doc pattern flags w).1 = Ok spans
    /\ length spans = length ms
    /\ Forall (fun x => span_doc x = doc /\
                        (span_end x <= length (doc_tokens doc))%nat) spans.
Proof.
  intros Hne Hc Hre Hall. rewrite doc_findall_spec, Hre.
  destruct (resolve_all_Resolve_all doc ms w Hc) as [-> _].
  by apply Resolve_all_in_range.
Qed.

Lemma drain_doc_suspended_prefix doc ms1 rest w :
  consistent doc w ->
  (drain re_finditer (length ms1) (doc_suspended doc (ms1 ++ rest)) w).1 =
  Resolve_all doc ms1.
Proof.
  revert w. induction ms1 as [|[s e] ms1 IH]; intros w Hc; [done|].
  simpl. unfold mbind, M_bind.
  pose proof (get_span_from_idxs_Resolve doc s e w Hc) as Hr.
  pose proof (get_span_from_idxs_consistent doc s e w Hc) as Hc1.
  destruct (get_span_from_idxs doc s e w) as [[x|err] w1]; simpl in *; rewrite <- Hr; [|done].
  specialize (IH w1 Hc1).
  destruct (drain re_finditer (length ms1) (doc_suspended doc (ms1 ++ rest)) w1)
    as [[xs|err] w2]; simpl in *; rewrite <- IH; done.
Qed.

Lemma drain_doc_created_prefix doc pattern flags ms1 rest w :
  consistent doc w ->
  re_finditer pattern (doc_text doc) flags = Ok (ms1 ++ rest) ->
  (drain re_finditer (length ms1) (doc_created doc pattern flags) w).1 =
  Resolve_all doc ms1.
Proof.
  intros Hc Hre. destruct ms1 as [|[s e] ms1]; [done|].
  simpl. unfold mbind, M_bind, lift. rewrite Hre. simpl. unfold mbind, M_bind.
  pose proof (get_span_from_idxs_Resolve doc s e w Hc) as Hr.
  pose proof (get_span_from_idxs_consistent doc s e w Hc) as Hc1.
  destruct (get_span_from_idxs doc s e w) as [[x|err] w1]; simpl in *; rewrite <- Hr; [|done].
  pose proof (drain_doc_suspended_prefix doc ms1 rest w1 Hc1) as IH.
  destruct (drain re_finditer (length ms1) (doc_suspended doc (ms1 ++ rest)) w1)
    as [[xs|err] w2]; simpl in *; rewrite <- IH; done.
Qed.

(** X13. The iterator is lazy and the list is all or nothing. When
    the matches before some match all resolve and that match does not,
    advancing [doc_finditer] once per earlier match yields their spans
    in order, the advance after them raises the error, and
    [doc_findall] raises the error without returning any span. *)
Theorem doc_finditer_yields_before_failure doc pattern flags ms1 s e ms2 xs err w :
  consistent doc w ->
  re_finditer pattern (doc_text doc) flags = Ok (ms1 ++ (s, e) :: ms2) ->
  Resolve_all doc ms1 = Ok xs -> Resolve doc s e = Raise err ->
  (drain re_finditer (length ms1) (doc_finditer doc pattern flags) w).1 = Ok xs
  /\ (drain re_finditer (S (length ms1)) (doc_finditer doc pattern flags) w).1 = Raise err
  /\ (doc_findall re_finditer doc pattern flags w).1 = Raise err.
Proof.
  intros Hc Hre Hxs Herr.
  assert (Hfail : forall tl, Resolve_all doc (ms1 ++ (s, e) :: tl) = Raise err).
  { intros tl. rewrite Resolve_all_app, Hxs. simpl. by rewrite Herr. }
  split; [|split].
  - unfold doc_finditer. by rewrite (drain_doc_created_prefix doc pattern flags ms1 _ w Hc Hre).
  - unfold doc_finditer.
    replace (S (length ms1)) with (length (ms1 ++ [(s, e)])) by (rewrite length_app; simpl; lia).
    rewrite (drain_doc_created_prefix doc pattern flags (ms1 ++ [(s, e)]) ms2 w Hc)
      by (by rewrite <- app_assoc).
    rewrite <- (Hfail []). done.
  - rewrite doc_findall_spec, Hre.
    destruct (resolve_all_Resolve_all doc (ms1 ++ (s, e) :: ms2) w Hc) as [-> _].
    apply Hfail.
Qed.

End SearchExtras.

Lemma doc_findall_total_witness :
  exists spans, (doc_findall literal_engine two_words "d" 0 fresh).1 = Ok spans
    /\ length spans = length [(4, 5)]
    /\ Forall (fun x => span_doc x = two_words /\
                        (span_end x <= length (doc_tokens two_words))%nat) spans.
Proof.
  apply (doc_findall_total literal_engine two_words "d" 0 [(4, 5)] fresh).
  - discriminate.
  - intros d H; discriminate H.
  - reflexivity.
  - constructor; [|constructor]. unfold index_end, tok_end, Py.len; simpl; lia.
Defined.

Lemma doc_finditer_yields_before_failure_witness :
  (drain literal_engine 3 (doc_finditer trailing_space "" 0) fresh).1 =
    Ok [mkSpan trailing_space 0 0; mkSpan trailing_space 0 0; mkSpan trailing_space 0 0]
  /\ (drain literal_engine 4 (doc_finditer trailing_space "" 0) fresh).1
     = Raise (KeyError 3)
  /\ (doc_findall literal_engine trailing_space "" 0 fresh).1 = Raise (KeyError 3).
Proof.
  apply (doc_finditer_yields_before_failure literal_engine trailing_space "" 0
           [(0, 0); (1, 1); (2, 2)] 3 3 []).
  - intros d H; discriminate H.
  - reflexivity.
  - vm_compute; reflexivity.
  - vm_compute; reflexivity.
Defined.

(** ** Searching a span *)

Lemma substring_full s : String.substring 0 (String.length s) s = s.
Proof. induction s as [|c s IH]; simpl; [done|]. by rewrite IH. Qed.

Lemma substring_length_le n m s : (String.length (String.substring n m s) <= m)%nat.
Proof.
  revert n m. induction s as [|c s IH]; intros n m.
  - destruct n, m; simpl; lia.
  - destruct n as [|n].
    + destruct m as [|m]; simpl; [lia|]. specialize (IH 0%nat m). lia.
    + simpl. apply IH.
Qed.

Lemma matches_from_bounds lo n ms :
  0 <= lo -> matches_from lo n ms -> Forall (fun m => 0 <= m.1 <= m.2 /\ m.2 <= n) ms.
Proof.
  revert lo. induction ms as [|[s e] rest IH]; intros lo Hlo Hms; [constructor|].
  simpl in Hms. apply andb_True in Hms as [Hms Hrest]. apply andb_True in Hms as [Hms He].
  apply andb_True in Hms as [Hs Hse].
  apply Is_true_true, Z.leb_le in Hs. apply Is_true_true, Z.leb_le in Hse.
  apply Is_true_true, Z.leb_le in He.
  constructor; [simpl; lia|]. apply (IH e); [lia|done].
Qed.

Lemma span_first_lookup sp first :
  span_first sp = Ok first ->
  (span_start sp < span_end sp)%nat /\ doc_tokens (span_doc sp) !! span_start sp = Some first.
Proof.
  unfold span_first. destruct (span_start sp <? span_end sp)%nat eqn:E; [|done].
  apply Nat.ltb_lt in E. intros H. split; [done|].
  unfold doc_getitem in H. destruct (Z.of_nat (span_start sp) <? 0) eqn:E0;
    [apply Z.ltb_lt in E0; lia|].
  destruct (_ && _); [|done]. rewrite Nat2Z.id in H.
  destruct (doc_tokens (span_doc sp) !! span_start sp); [|done]. by inversion H.
Qed.

(** With ordered tokens, an offset at or after the first token and
    before the start of the token at position [j], when there is one,
    looks up to a position before [j]. *)
Lemma Lookup_below doc o a j t0 :
  tokens_ordered (doc_tokens doc) ->
  doc_tokens doc !! 0%nat = Some t0 -> idx t0 <= o -> o <= index_end doc ->
  Lookup doc o = Ok a ->
  (forall b, doc_tokens doc !! j = Some b -> o < idx b) ->
  (length (doc_tokens doc) <= j)%nat \/ (a < j)%nat.
Proof.
  intros Hord Ht0 Hlo Hhi Ha Hj.
  destruct (decide (j < length (doc_tokens doc))%nat) as [Hlt|]; [right|left; lia].
  destruct (lookup_lt_is_Some_2 _ _ Hlt) as [b Hb]. specialize (Hj b Hb).
  pose proof (tokens_ordered_nonneg _ _ _ Hord Ht0) as H0.
  destruct (Lookup_nearest doc o a Hord ltac:(lia) Ha) as (ta & Hta & Hstart & _).
  specialize (Hstart ltac:(exists t0; split; [done|lia])).
  destruct (decide (a < j)%nat) as [|Hge]; [done|]. exfalso.
  destruct (decide (a = j)) as [->|Hne].
  - rewrite Hta in Hb. inversion Hb; subst. lia.
  - pose proof (tokens_ordered_increasing _ j a b ta Hord ltac:(lia) Hb Hta). lia.
Qed.

(** A resolved interval that lies between the start of the token at
    [a] and the end of the token before [b] gives a span inside
    [[a, b)]. *)
Lemma Resolve_inside doc a b first last s e x :
  tokens_ordered (doc_tokens doc) -> (a < b)%nat ->
  doc_tokens doc !! a = Some first -> doc_tokens doc !! Nat.pred b = Some last ->
  idx first <= s -> s <= e -> e <= tok_end last ->
  Resolve doc s e = Ok x ->
  (a <= span_start x)%nat /\ (span_end x <= b)%nat.
Proof.
  intros Hord Hab Hfirst Hlast Hs Hse He Hres.
  pose proof (tokens_ordered_nonneg _ _ _ Hord Hfirst) as H0.
  pose proof (tok_end_le_index_end doc _ last Hord Hlast) as Hend.
  pose proof (lookup_lt_Some _ _ _ Hlast) as Hlen.
  destruct (lookup_lt_is_Some_2 (doc_tokens doc) 0 ltac:(lia)) as [t0 Ht0].
  pose proof (tokens_ordered_first_le _ _ _ _ Hord Ht0 Hfirst) as Ht0le.
  assert (Hafter : forall j b', (b <= j)%nat -> doc_tokens doc !! j = Some b' ->
            tok_end last <= idx b').
  { intros j b' Hj Hb'.
    destruct (lookup_lt_is_Some_2 (doc_tokens doc) b
                ltac:(pose proof (lookup_lt_Some _ _ _ Hb'); lia)) as [tb Htb].
    pose proof (tokens_after_end_le_next None _ (Nat.pred b) last tb Hord Hlast
                  ltac:(by replace (S (Nat.pred b)) with b by lia)).
    destruct (decide (j = b)) as [->|Hne].
    - rewrite Htb in Hb'. inversion Hb'; subst. lia.
    - pose proof (tokens_ordered_increasing _ b j tb b' Hord ltac:(lia) Htb Hb'). lia. }
  assert (Hown : Lookup doc (idx first) = Ok a).
  { destruct (Lookup doc (idx first)) as [i|] eqn:Hi.
    - f_equal. destruct (Lookup_nearest doc (idx first) i Hord ltac:(lia) Hi)
        as (ti & Hti & Hstart & Hlater).
      specialize (Hstart ltac:(exists t0; split; [done|lia])).
      destruct (decide (i = a)) as [|Hne]; [done|].
      destruct (decide (i < a)%nat).
      + specialize (Hlater a first ltac:(lia) Hfirst). lia.
      + pose proof (tokens_ordered_increasing _ a i first ti Hord ltac:(lia) Hfirst Hti). lia.
    - pose proof (chr2tok_nonempty doc ltac:(intros Hn; by rewrite Hn in Hfirst)) as [d Hd].
      rewrite Lookup_in_range in Hi; [done | intros Hn; by rewrite Hn in Hfirst | lia]. }
  unfold Resolve in Hres.
  destruct (Lookup doc s) as [i|] eqn:Hi; [|done].
  pose proof (Lookup_mono doc (idx first) s a i Hord ltac:(lia) Hown Hi) as Hlow.
  destruct (s =? e) eqn:E.
  - inversion Hres; subst. simpl. split; [done|].
    destruct (Lookup_below doc s i (S b) t0 Hord Ht0 ltac:(lia) ltac:(lia) Hi) as [Hge|Hlt].
    + intros b' Hb'.
      pose proof (Hafter (S b) b' ltac:(lia) Hb').
      destruct (lookup_lt_is_Some_2 (doc_tokens doc) b
                  ltac:(pose proof (lookup_lt_Some _ _ _ Hb'); lia)) as [tb Htb].
      pose proof (Hafter b tb ltac:(lia) Htb).
      pose proof (tokens_ordered_increasing _ b (S b) tb b' Hord ltac:(lia) Htb Hb'). lia.
    + pose proof (Lookup_bound doc s i Hi). lia.
    + lia.
  - apply Z.eqb_neq in E.
    destruct (Lookup doc (e - 1)) as [k|] eqn:Hk; [|done].
    inversion Hres; subst. simpl. split; [done|].
    destruct (Lookup_below doc (e - 1) k b t0 Hord Ht0 ltac:(lia) ltac:(lia) Hk) as [Hge|Hlt].
    + intros b' Hb'. pose proof (Hafter b b' ltac:(lia) Hb'). lia.
    + pose proof (Lookup_bound doc (e - 1) k Hk). lia.
    + lia.
Qed.

Lemma shift_match_zero (ms : list (Z * Z)) : shift_match 0 <$> ms = ms.
Proof.
  induction ms as [|[s e] rest IH]; [done|].
  rewrite fmap_cons, IH. unfold shift_match. simpl. by rewrite !Z.add_0_r.
Qed.

Lemma span_text_whole doc t0 :
  doc_tokens doc !! 0%nat = Some t0 -> idx t0 = 0 ->
  index_end doc = doc_char_length doc ->
  span_text (mkSpan doc 0 (length (doc_tokens doc))) = doc_text doc.
Proof.
  intros Ht0 Hidx Hend. unfold span_text. simpl. rewrite Ht0.
  pose proof (lookup_lt_Some _ _ _ Ht0) as Hlen.
  unfold index_end in Hend. rewrite last_lookup in Hend.
  destruct (doc_tokens doc !! Nat.pred (length (doc_tokens doc))) as [lt|] eqn:El.
  - replace (0 <? length (doc_tokens doc))%nat with true by (symmetry; apply Nat.ltb_lt; lia).
    unfold Py.slice. rewrite Hidx, Hend. unfold doc_char_length, Py.len. simpl.
    rewrite Z.sub_0_r, Nat2Z.id. apply substring_full.
  - apply lookup_ge_None in El. lia.
Qed.

Section SpanSearchExtras.

Variable re_finditer : regex_engine.

(** X14. When the first token starts at offset 0 and the text ends
    with the last token, searching the span of all tokens is searching
    the document: [span_findall] returns what [doc_findall] returns and
    leaves the same store. *)
Theorem span_findall_whole_document doc t0 pattern flags w :
  doc_tokens doc !! 0%nat = Some t0 -> idx t0 = 0 ->
  index_end doc = doc_char_length doc ->
  span_findall re_finditer (mkSpan doc 0 (length (doc_tokens doc))) pattern flags w =
  doc_findall re_finditer doc pattern flags w.
Proof.
  intros Ht0 Hidx Hend. rewrite span_findall_spec, doc_findall_spec.
  rewrite (span_text_whole doc t0 Ht0 Hidx Hend).
  pose proof (lookup_lt_Some _ _ _ Ht0) as Hlen.
  assert (Hfirst : span_first (mkSpan doc 0 (length (doc_tokens doc))) = Ok t0).
  { unfold span_first. simpl.
    replace (0 <? length (doc_tokens doc))%nat with true by (symmetry; apply Nat.ltb_lt; lia).
    exact (doc_getitem_nat doc 0 t0 Ht0). }
  rewrite Hfirst, Hidx. simpl.
  destruct (re_finditer pattern (doc_text doc) flags); [|done].
  by rewrite shift_match_zero.
Qed.

(** X15. On a span of a document with ordered tokens, for matches the
    engine reports inside the span's text, [span_findall] raises
    nothing: it returns one span per match, and every span it returns
    is a span of the same document that lies inside the span searched. *)
Theorem span_findall_inside span first pattern flags ms w :
  tokens_ordered (doc_tokens (span_doc span)) -> consistent (span_doc span) w ->
  span_first span = Ok first ->
  (span_end span <= length (doc_tokens (span_doc span)))%nat ->
  re_finditer pattern (span_text span) flags = Ok ms ->
  matches_ok (Py.len (span_text span)) ms ->
  exists spans, (span_findall re_finditer span pattern flags w).1 = Ok spans
    /\ length spans = length ms
    /\ Forall (fun x => span_doc x = span_doc span
                        /\ (span_start span <= span_start x)%nat
                        /\ (span_end x <= span_end span)%nat) spans.
Proof.
  intros Hord Hc Hfirst Hend Hre Hms.
  rewrite span_findall_spec, Hfirst, Hre.
  destruct (resolve_all_Resolve_all (span_doc span) (shift_match (idx first) <$> ms) w Hc)
    as [-> _].
  destruct (span_first_lookup span first Hfirst) as [Hlt Ha].
  destruct (lookup_lt_is_Some_2 (doc_tokens (span_doc span)) (Nat.pred (span_end span))
              ltac:(lia)) as [lt Hl].
  pose proof (tokens_ordered_nonneg _ _ _ Hord Ha) as H0.
  pose proof (tok_end_le_index_end _ _ lt Hord Hl) as Hidx.
  assert (Hspan : idx first <= tok_end lt).
  { pose proof (len_nonneg (text lt)). unfold tok_end.
    destruct (decide (span_start span = Nat.pred (span_end span))) as [Heq|Hne].
    - rewrite Heq, Hl in Ha. inversion Ha; subst. lia.
    - pose proof (tokens_ordered_increasing _ (span_start span) (Nat.pred (span_end span))
                    first lt Hord ltac:(lia) Ha Hl). lia. }
  assert (Hlen : Py.len (span_text span) <= tok_end lt - idx first).
  { unfold span_text. rewrite Ha, Hl.
    replace (span_start span <? span_end span)%nat with true
      by (symmetry; apply Nat.ltb_lt; lia).
    unfold Py.slice, Py.len.
    pose proof (substring_length_le (Z.to_nat (idx first)) (Z.to_nat (tok_end lt - idx first))
                  (doc_text (span_doc span))). lia. }
  apply (matches_from_bounds 0) in Hms; [|lia].
  clear Hre. induction Hms as [|[s e] rest (Hse & He) _ IH].
  - exists []. repeat split; constructor.
  - destruct IH as (spans & Hres & Hcount & Hin). simpl in Hse, He.
    rewrite fmap_cons. unfold shift_match at 1. cbn [Resolve_all fst snd].
    destruct (Resolve (span_doc span) (s + idx first) (e + idx first)) as [x|err] eqn:Hx.
    + rewrite Hres. exists (x :: spans). split; [done|]. split; [simpl; lia|].
      constructor; [|done].
      destruct (Resolve_coordinates _ _ _ _ Hx) as (Hd & _).
      split; [done|].
      apply (Resolve_inside (span_doc span) (span_start span) (span_end span) first lt
               (s + idx first) (e + idx first)); (done || lia).
    + exfalso. unfold Resolve in Hx.
      assert (Hne : doc_tokens (span_doc span) <> []) by (intros Hn; by rewrite Hn in Ha).
      rewrite Lookup_in_range in Hx by (done || lia).
      destruct (s + idx first =? e + idx first) eqn:E; [done|]. apply Z.eqb_neq in E.
      rewrite Lookup_in_range in Hx by (done || lia). done.
Qed.

End SpanSearchExtras.

Lemma span_findall_whole_document_witness :
  span_findall literal_engine (mkSpan ex_doc 0 (length (doc_tokens ex_doc))) "" 0 fresh =
  doc_findall literal_engine ex_doc "" 0 fresh.
Proof.
  apply (span_findall_whole_document literal_engine ex_doc (mkToken 0 "ab")).
  - reflexivity.
  - reflexivity.
  - reflexivity.
Defined.

Lemma span_findall_inside_witness :
  exists spans, (span_findall literal_engine (mkSpan indented 1 2) "" 0 fresh).1 = Ok spans
    /\ length spans = length [(0, 0); (1, 1); (2, 2)]
    /\ Forall (fun x => span_doc x = indented
                        /\ (1 <= span_start x)%nat /\ (span_end x <= 2)%nat) spans.
Proof.
  apply (span_findall_inside literal_engine (mkSpan indented 1 2) (mkToken 5 "cd") "" 0
           [(0, 0); (1, 1); (2, 2)] fresh).
  - exact I.
  - intros d H; discriminate H.
  - reflexivity.
  - simpl; lia.
  - reflexivity.
  - exact I.
Defined.

(** ** Documents without tokens, searched *)

Section EmptySearch.

Variable re_finditer : regex_engine.

(** X16. A search touches the tokens only when there is a match to
    resolve. On a document without tokens, [doc_findall] returns the
    empty list when the engine reports no match, and raises
    [IndexError] as soon as the engine reports one, the empty match
    included; the store is left as it was in both cases. *)
Theorem doc_findall_without_tokens doc pattern flags w :
  doc_tokens doc = [] -> consistent doc w ->
  (re_finditer pattern (doc_text doc) flags = Ok [] ->
   doc_findall re_finditer doc pattern flags w = (Ok [], w))
  /\ (forall m ms, re_finditer pattern (doc_text doc) flags = Ok (m :: ms) ->
      doc_findall re_finditer doc pattern flags w = (Raise IndexError, w)
      /\ next re_finditer (doc_finditer doc pattern flags) w = (Raise IndexError, w)).
Proof.
  intros Hnil Hc. split.
  - intros Hre. by rewrite doc_findall_spec, Hre.
  - intros [s e] ms Hre.
    assert (Hres : get_span_from_idxs doc s e w = (Raise IndexError, w)).
    { rewrite get_span_from_idxs_spec by done. unfold Lookup, after_lookup.
      by rewrite (chr2tok_empty doc Hnil). }
    split.
    + rewrite doc_findall_spec, Hre. simpl. unfold mbind, M_bind. by rewrite Hres.
    + simpl. unfold mbind, M_bind, lift. rewrite Hre. simpl. unfold mbind, M_bind.
      by rewrite Hres.
Qed.

End EmptySearch.

Lemma doc_findall_without_tokens_witness :
  doc_findall literal_engine empty_doc "x" 0 fresh = (Ok [], fresh)
  /\ doc_findall literal_engine empty_doc "" 0 fresh = (Raise IndexError, fresh).
Proof.
  assert (Hnil : doc_tokens empty_doc = []) by reflexivity.
  assert (Hc : consistent empty_doc fresh) by (intros d H; discriminate H).
  split.
  - exact (proj1 (doc_findall_without_tokens literal_engine empty_doc "x" 0 fresh Hnil Hc)
             eq_refl).
  - exact (proj1 (proj2 (doc_findall_without_tokens literal_engine empty_doc "" 0 fresh Hnil Hc)
                    (0, 0) [] eq_refl)).
Defined.
